(** * gitgo: pack objects, delta resolution and the pack locator

    A shallow embedding of [pack.go].  Pointers to pack objects are
    locations of an explicit heap, the [map[SHA]*packObject] handed to
    [Patch] is a finite map from names to locations, and the recursion of
    [Patch] is driven by a fuel argument because a cyclic chain of bases
    makes the Go method recurse for ever. *)

From Stdlib Require Import ZArith List String Ascii Bool Lia DecimalString.
From stdpp Require Import base option gmap strings list.

Local Open Scope string_scope.
Local Open Scope Z_scope.

(** ** Data model *)

(** [type SHA string] *)
Abbreviation SHA := string.

(** [type packObjectType uint8] with its [iota] constants; the values 0 and
    5 are skipped by the Go declaration. *)
Definition packObjectType := Z.

Definition OBJ_COMMIT : packObjectType := 1.
Definition OBJ_TREE : packObjectType := 2.
Definition OBJ_BLOB : packObjectType := 3.
Definition OBJ_TAG : packObjectType := 4.
Definition OBJ_OFS_DELTA : packObjectType := 6.
Definition OBJ_REF_DELTA : packObjectType := 7.

(** Go's [error] values.  [Errorf] is an error built by [fmt.Errorf] in
    [pack.go], carrying its formatted message; [Foreign] is an error value
    handed back by a collaborator ([os.Open], [ioutil.ReadAll],
    [VerifyPack], [patchDelta], the parsers). *)
Inductive error : Type :=
| Errorf (msg : string)
| Foreign (tag : string).

(** A [[]byte]: [None] is the nil slice, [Some l] a non-nil slice, so that
    [Some []] is the empty non-nil slice. *)
Definition bytes := option (list Byte.byte).

(** [len(b)] *)
Definition len (b : bytes) : Z :=
  match b with
  | None => 0
  | Some l => Z.of_nat (length l)
  end.

(** What [bytes.NewReader(b)] yields when read: nothing for a nil slice. *)
Definition contents (b : bytes) : list Byte.byte :=
  match b with
  | None => []
  | Some l => l
  end.

(** Go's [int] (64 bits), with the wrap-around of [+=]. *)
Definition wrap_int (z : Z) : Z := (z + 2 ^ 63) mod 2 ^ 64 - 2 ^ 63.

Record packObject : Type := mkPackObject {
  Name : SHA;
  Offset : Z;
  Data : bytes;
  _type : packObjectType;
  PatchedData : bytes;
  Size : Z;
  SizeInPackfile : Z;
  negativeOffset : Z;
  BaseObjectName : SHA;
  BaseObjectType : packObjectType;
  baseOffset : Z;
  Depth : Z;
  err : option error
}.

Definition set_PatchedData (v : bytes) (p : packObject) : packObject :=
  mkPackObject (Name p) (Offset p) (Data p) (_type p) v (Size p)
    (SizeInPackfile p) (negativeOffset p) (BaseObjectName p)
    (BaseObjectType p) (baseOffset p) (Depth p) (err p).

Definition set_BaseObjectType (v : packObjectType) (p : packObject) : packObject :=
  mkPackObject (Name p) (Offset p) (Data p) (_type p) (PatchedData p) (Size p)
    (SizeInPackfile p) (negativeOffset p) (BaseObjectName p)
    v (baseOffset p) (Depth p) (err p).

Definition set_Depth (v : Z) (p : packObject) : packObject :=
  mkPackObject (Name p) (Offset p) (Data p) (_type p) (PatchedData p) (Size p)
    (SizeInPackfile p) (negativeOffset p) (BaseObjectName p)
    (BaseObjectType p) (baseOffset p) v (err p).

(** A [*packObject] is a location; the heap holds the objects.  A location
    the heap does not hold stands for the nil pointer: dereferencing it
    panics. *)
Abbreviation ptr := nat.
Abbreviation heap := (gmap nat packObject).
Abbreviation dictionary := (gmap string nat).

(** [func (p *packObject) PatchedType() packObjectType] *)
Definition PatchedType (p : packObject) : packObjectType :=
  if _type p <? OBJ_OFS_DELTA then _type p else BaseObjectType p.

(** An [io.Reader], seen through what [ioutil.ReadAll] gets out of it: the
    bytes read and the error that stopped the reading, if any. *)
Record Reader : Type := mkReader {
  r_data : list Byte.byte;
  r_err : option error
}.

(** [ioutil.ReadAll]: the slice it returns is never nil. *)
Definition ioutil_ReadAll (r : Reader) : bytes * option error :=
  (Some (r_data r), r_err r).

(** Outcome of a call of [Patch]: the returned [error] ([Ok] for nil), a
    nil-pointer panic, or the recursion outliving the fuel. *)
Inductive outcome : Type :=
| Ok
| Err (e : error)
| Panic
| OutOfFuel.

(** ** Delta resolution *)

Section Resolver.

(** [patchDelta(base, delta)] of the delta decoder, over the bytes of its
    two readers: a reader of the patched bytes, or an error. *)
Variable patchDelta : list Byte.byte -> list Byte.byte -> Reader + error.

(** [func (p *packObject) Patch(dict map[SHA]*packObject) error].  The
    deferred empty closure guarded by the hard-coded name does nothing and
    is left out. *)
Fixpoint Patch (fuel : nat) (h : heap) (p : ptr) (dict : dictionary)
  : outcome * heap :=
  match fuel with
  | O => (OutOfFuel, h)
  | S fuel' =>
    match h !! p with
    | None => (Panic, h)
    | Some po =>
      if negb (len (PatchedData po) =? 0) then (Ok, h)
      else if _type po <? OBJ_OFS_DELTA then
        match Data po with
        | None => (Err (Errorf "base object data is nil"), h)
        | Some _ =>
          (Ok, <[p := set_BaseObjectType (_type po)
                        (set_PatchedData (Data po) po)]> h)
        end
      else if _type po >=? OBJ_OFS_DELTA then
        match dict !! BaseObjectName po with
        | None =>
          (Err (Errorf (String.append "base object not in dictionary: "
                                     (BaseObjectName po))), h)
        | Some base =>
          match Patch fuel' h base dict with
          | (Ok, h1) =>
            match h1 !! base, h1 !! p with
            | Some bo, Some po1 =>
              match patchDelta (contents (PatchedData bo)) (contents (Data po1)) with
              | inr e => (Err e, h1)
              | inl patched =>
                let '(data, rerr) := ioutil_ReadAll patched in
                let po2 := set_PatchedData data po1 in
                let h2 := <[p := po2]> h1 in
                match rerr with
                | Some e => (Err e, h2)
                | None =>
                  match h2 !! base with
                  | Some bo2 =>
                    let po3 := set_BaseObjectType (BaseObjectType bo2) po2 in
                    let h3 := <[p := po3]> h2 in
                    match h3 !! base with
                    | Some bo3 =>
                      (Ok, <[p := set_Depth (wrap_int (Depth po3 + Depth bo3)) po3]> h3)
                    | None => (Panic, h3)
                    end
                  | None => (Panic, h2)
                  end
                end
              end
            | _, _ => (Panic, h1)
            end
          | (r, h1) => (r, h1)
          end
        end
      else (Ok, h)
    end
  end.

End Resolver.

(** ** Type normalisation *)

(** [strconv.Itoa] *)
Definition strconv_Itoa (z : Z) : string := NilZero.string_of_int (Z.to_int z).

Section Normalizer.

(** The domain records [Commit], [Tree] and [Blob] with their zero values
    ([Commit{}], ...), their parsers, and the [String] method that
    [stringer] generates for [packObjectType]. *)
Variables Commit Tree Blob : Type.
Variable Commit_zero : Commit.
Variable Tree_zero : Tree.
Variable Blob_zero : Blob.
Variable parseCommit : list Byte.byte -> string -> SHA -> Commit * option error.
Variable parseTree : list Byte.byte -> string -> string -> Tree * option error.
Variable parseBlob : list Byte.byte -> string -> Blob * option error.
Variable packObjectType_String : packObjectType -> string.

(** The values a [GitObject] interface holds in this file. *)
Inductive GitObject : Type :=
| GitCommit (c : Commit)
| GitTree (t : Tree)
| GitBlob (b : Blob)
| GitPackObject (p : ptr).

(** [func (p *packObject) Type() string] *)
Definition Type_ (p : packObject) : string := packObjectType_String (_type p).

(** [if p.PatchedData == nil { p.PatchedData = p.Data }] *)
Definition fallback (h : heap) (p : ptr) (po : packObject) : packObject * heap :=
  match PatchedData po with
  | None => let po' := set_PatchedData (Data po) po in (po', <[p := po']> h)
  | Some _ => (po, h)
  end.

(** [func (p *packObject) Commit(basedir string) (Commit, error)];
    [None] is the panic on a nil receiver. *)
Definition packObject_Commit (h : heap) (p : ptr) (basedir : string)
  : option (Commit * option error * heap) :=
  match h !! p with
  | None => None
  | Some po =>
    if negb (_type po =? OBJ_COMMIT) then
      Some (Commit_zero,
            Some (Errorf (String.append "pack object is not a commit: " (Type_ po))), h)
    else
      let '(po', h') := fallback h p po in
      let '(commit, e) :=
        parseCommit (contents (PatchedData po')) (strconv_Itoa (Size po')) (Name po') in
      Some (commit, e, h')
  end.

(** [func (p *packObject) Tree(basedir string) (Tree, error)] *)
Definition packObject_Tree (h : heap) (p : ptr) (basedir : string)
  : option (Tree * option error * heap) :=
  match h !! p with
  | None => None
  | Some po =>
    if negb (_type po =? OBJ_TREE) then
      Some (Tree_zero,
            Some (Errorf (String.append "pack object is not a tree: " (Type_ po))), h)
    else
      let '(po', h') := fallback h p po in
      let '(tree, e) :=
        parseTree (contents (PatchedData po')) (strconv_Itoa (Size po')) basedir in
      Some (tree, e, h')
  end.

(** [func (p *packObject) Blob(basedir string) (Blob, error)] *)
Definition packObject_Blob (h : heap) (p : ptr) (basedir : string)
  : option (Blob * option error * heap) :=
  match h !! p with
  | None => None
  | Some po =>
    if negb (_type po =? OBJ_BLOB) then
      Some (Blob_zero,
            Some (Errorf (String.append "pack object is not a blob: " (Type_ po))), h)
    else
      let '(po', h') := fallback h p po in
      let '(blob, e) := parseBlob (contents (PatchedData po')) basedir in
      Some (blob, e, h')
  end.

(** [func (p *packObject) normalize(basedir string) (GitObject, error)]:
    the [switch] is on [p._type]. *)
Definition normalize (h : heap) (p : ptr) (basedir : string)
  : option (GitObject * option error * heap) :=
  match h !! p with
  | None => None
  | Some po =>
    if _type po =? OBJ_COMMIT then
      match packObject_Commit h p basedir with
      | Some (c, e, h') => Some (GitCommit c, e, h')
      | None => None
      end
    else if _type po =? OBJ_TREE then
      match packObject_Tree h p basedir with
      | Some (t, e, h') => Some (GitTree t, e, h')
      | None => None
      end
    else if _type po =? OBJ_BLOB then
      match packObject_Blob h p basedir with
      | Some (b, e, h') => Some (GitBlob b, e, h')
      | None => None
      end
    else Some (GitPackObject p, None, h)
  end.

End Normalizer.

Arguments GitCommit {Commit Tree Blob} c.
Arguments GitTree {Commit Tree Blob} t.
Arguments GitBlob {Commit Tree Blob} b.
Arguments GitPackObject {Commit Tree Blob} p.

(** ** Pack locator *)

(** [strings.HasPrefix(s, prefix)] *)
Definition strings_HasPrefix (s prefix : string) : bool := String.prefix prefix s.

(** [strings.HasSuffix(s, suffix)] *)
Definition strings_HasSuffix (s suffix : string) : bool :=
  (String.length suffix <=? String.length s)%nat &&
  String.eqb
    (String.substring (String.length s - String.length suffix)
       (String.length suffix) s)
    suffix.

(** [strings.TrimSuffix(s, suffix)] *)
Definition strings_TrimSuffix (s suffix : string) : string :=
  if strings_HasSuffix s suffix
  then String.substring 0 (String.length s - String.length suffix) s
  else s.

(** An [*os.File]: the descriptor number it was given and the path it was
    opened from. *)
Record File : Type := mkFile {
  fd : nat;
  fname : string
}.

(** What the locator does to the outside world, in the order it does it. *)
Inductive event : Type :=
| EvOpen (f : File)
| EvVerify (pf inf : File)
| EvClose (f : File).

Record world : Type := mkWorld {
  next_fd : nat;
  events : list event
}.

Definition emit (e : event) (w : world) : world :=
  mkWorld (next_fd w) (events w ++ [e]).

(** The handles a sequence of events leaves open. *)
Fixpoint open_handles (evs : list event) (acc : list nat) : list nat :=
  match evs with
  | [] => acc
  | EvOpen f :: evs' => open_handles evs' (acc ++ [fd f])
  | EvClose f :: evs' =>
    open_handles evs' (List.filter (fun n => negb (Nat.eqb n (fd f))) acc)
  | EvVerify _ _ :: evs' => open_handles evs' acc
  end.

Section Locator.

(** The storage directory as the locator sees it: [path.Join],
    [ioutil.ReadDir] (the names of the entries), which paths [os.Open]
    refuses, and what the verifier makes of the two files behind the
    handles it is given.  The errors of [os.Open] and of the verifier are
    values made outside [pack.go]: the directory gives their tags.  The
    pointers of the slice [VerifyPack] returns are taken with the objects
    they point to: the locator only reads their [Name]. *)
Variable path_Join : list string -> string.
Variable ioutil_ReadDir : string -> list string + error.
Variable open_error : string -> option string.
Variable verify : string -> string -> list packObject + string.

(** [os.Open] *)
Definition os_Open (path : string) (w : world) : (File + error) * world :=
  match open_error path with
  | Some tag => (inr (Foreign tag), w)
  | None =>
    let f := mkFile (next_fd w) path in
    (inl f, mkWorld (S (next_fd w)) (events w ++ [EvOpen f]))
  end.

(** [VerifyPack(pf, inf)] *)
Definition VerifyPack (pf inf : File) : list packObject + error :=
  match verify (fname pf) (fname inf) with
  | inl objs => inl objs
  | inr tag => inr (Foreign tag)
  end.

(** [func listPackfiles(basedir string) ([]SHA, error)] *)
Definition listPackfiles (basedir : string) : list SHA + error :=
  match ioutil_ReadDir (path_Join [basedir; "objects"; "pack"]) with
  | inr e => inr e
  | inl files =>
    inl (fold_left
           (fun (packfileNames : list SHA) (file : string) =>
              let base := strings_TrimSuffix file ".pack" in
              if String.eqb base file then packfileNames
              else (packfileNames ++ [base])%list)
           files [])
  end.

(** The [for] loop of [objInPacks].  [deferred] is the stack of the
    deferred [Close] calls, the latest on top; the result is what the
    function is about to return, before the deferred calls run. *)
Fixpoint objInPacks_loop (packs : list SHA) (object : SHA) (basedir : string)
    (deferred : list File) (w : world)
  : (option packObject * option error) * list File * world :=
  match packs with
  | [] =>
    ((None, Some (Errorf (String.append "object not in any packfiles: " object))),
     deferred, w)
  | name :: packs' =>
    match os_Open (path_Join [basedir; "objects"; "pack"; String.append name ".pack"]) w with
    | (inr e, w1) => ((None, Some e), deferred, w1)
    | (inl pf, w1) =>
      let deferred1 := pf :: deferred in
      match os_Open (path_Join [basedir; "objects"; "pack"; String.append name ".idx"]) w1 with
      | (inr e, w2) => ((None, Some e), deferred1, w2)
      | (inl inf, w2) =>
        let deferred2 := inf :: deferred1 in
        let w3 := emit (EvVerify pf inf) w2 in
        match VerifyPack pf inf with
        | inr e => ((None, Some e), deferred2, w3)
        | inl objs =>
          match find (fun obj => strings_HasPrefix (Name obj) object) objs with
          | Some obj => ((Some obj, None), deferred2, w3)
          | None => objInPacks_loop packs' object basedir deferred2 w3
          end
        end
      end
    end
  end.

(** The deferred [Close] calls, run last-in first-out when the function
    returns. *)
Fixpoint run_deferred (deferred : list File) (w : world) : world :=
  match deferred with
  | [] => w
  | f :: deferred' => run_deferred deferred' (emit (EvClose f) w)
  end.

(** [func objInPacks(packs []SHA, object SHA, basedir string)], returning a
    pointer to a pack object and an error. *)
Definition objInPacks (packs : list SHA) (object : SHA) (basedir : string)
    (w : world) : (option packObject * option error) * world :=
  let '(r, deferred, w') := objInPacks_loop packs object basedir [] w in
  (r, run_deferred deferred w').

(** [func searchPacks(object SHA, basedir string)], with the same results. *)
Definition searchPacks (object : SHA) (basedir : string) (w : world)
  : (option packObject * option error) * world :=
  match listPackfiles basedir with
  | inr e => ((None, Some e), w)
  | inl packs => objInPacks packs object basedir w
  end.

(** *** Vocabulary for the statements about the locator *)

(** The paths of the two companion files of an archive. *)
Definition pack_path (basedir : string) (name : SHA) : string :=
  path_Join [basedir; "objects"; "pack"; String.append name ".pack"].

Definition idx_path (basedir : string) (name : SHA) : string :=
  path_Join [basedir; "objects"; "pack"; String.append name ".idx"].

(** Both files of the archive open and the verifier lists [objs]. *)
Definition archive_lists (basedir : string) (name : SHA) (objs : list packObject)
  : Prop :=
  open_error (pack_path basedir name) = None /\
  open_error (idx_path basedir name) = None /\
  verify (pack_path basedir name) (idx_path basedir name) = inl objs.

(** Opening one of the two files fails, or the verifier rejects the
    archive, with the error tagged [tag]. *)
Definition archive_fails (basedir : string) (name : SHA) (tag : string) : Prop :=
  open_error (pack_path basedir name) = Some tag \/
  (open_error (pack_path basedir name) = None /\
   open_error (idx_path basedir name) = Some tag) \/
  (open_error (pack_path basedir name) = None /\
   open_error (idx_path basedir name) = None /\
   verify (pack_path basedir name) (idx_path basedir name) = inr tag).

(** The first descriptor of [objs] whose name starts with [object]. *)
Definition first_match (object : SHA) (objs : list packObject) : option packObject :=
  find (fun obj => strings_HasPrefix (Name obj) object) objs.

(** The error of the last line of [objInPacks]. *)
Definition not_in_packfiles (object : SHA) : error :=
  Errorf (String.append "object not in any packfiles: " object).

(** The state of the search after an archive that opened and verified:
    two more handles, deferred and open, and three more events. *)
Definition after_archive (basedir : string) (name : SHA)
    (dw : list File * world) : list File * world :=
  let '(deferred, w) := dw in
  let pf := mkFile (next_fd w) (pack_path basedir name) in
  let inf := mkFile (S (next_fd w)) (idx_path basedir name) in
  (inf :: pf :: deferred,
   mkWorld (S (S (next_fd w)))
     (events w ++ [EvOpen pf; EvOpen inf; EvVerify pf inf])).

(** The state of the search after a run of such archives. *)
Definition after_archives (basedir : string) (names : list SHA)
    (dw : list File * world) : list File * world :=
  fold_left (fun dw name => after_archive basedir name dw) names dw.

End Locator.

(** The pairs of paths the verifier was run on, in order. *)
Fixpoint verified_paths (evs : list event) : list (string * string) :=
  match evs with
  | [] => []
  | EvVerify pf inf :: evs' => (fname pf, fname inf) :: verified_paths evs'
  | _ :: evs' => verified_paths evs'
  end.

(** ** Sample data

    A three-link chain in one pack: a blob [a], a delta [b] on [a] and a
    delta [d] on [b], as a decoder that counts one hop per delta hands them
    over; and stand-ins for the collaborators. *)

(** A descriptor as decoding leaves it: no patched data, no base type. *)
Definition decoded (name : SHA) (t : packObjectType) (data : bytes)
    (base : SHA) (depth : Z) : packObject :=
  mkPackObject name 0 data t None 0 0 0 base 0 0 depth None.

(** A stand-in for the delta decoder: the delta is a header byte followed
    by the bytes to insert; an empty delta is rejected. *)
Definition sample_patchDelta (base delta : list Byte.byte) : Reader + error :=
  match delta with
  | [] => inr (Foreign "delta: no header")
  | _ :: inserted => inl (mkReader inserted None)
  end.

Definition sample_dict : dictionary :=
  <["a" := 0%nat]> (<["b" := 1%nat]> (<["d" := 2%nat]> ∅)).

Definition sample_heap : heap :=
  <[0%nat := decoded "a" OBJ_BLOB (Some [Byte.x01]) "" 0]>
  (<[1%nat := decoded "b" OBJ_REF_DELTA (Some [Byte.x00]) "a" 1]>
  (<[2%nat := decoded "d" OBJ_REF_DELTA (Some [Byte.x00]) "b" 1]> ∅)).

(** The chain once the blob [a] has been patched. *)
Definition sample_heap_a : heap :=
  snd (Patch sample_patchDelta 1 sample_heap 0%nat sample_dict).

(** A blob whose descriptor carries a depth of 5. *)
Definition deep_blob : packObject := decoded "a" OBJ_BLOB (Some [Byte.x01]) "" 5.

(** A delta that resolved to a commit. *)
Definition resolved_commit_delta : packObject :=
  mkPackObject "c" 0 (Some [Byte.x00; Byte.x63]) OBJ_REF_DELTA (Some [Byte.x63])
    1 3 0 "a" OBJ_COMMIT 0 1 None.

(** Stand-ins for the parsers: the parsed record is the payload itself. *)
Definition sample_parseCommit (data : list Byte.byte) (size : string) (name : SHA)
  : list Byte.byte * option error := (data, None).
Definition sample_parseTree (data : list Byte.byte) (size basedir : string)
  : list Byte.byte * option error := (data, None).
Definition sample_parseBlob (data : list Byte.byte) (basedir : string)
  : list Byte.byte * option error := (data, None).
Definition sample_String (t : packObjectType) : string := strconv_Itoa t.

Definition sample_normalize : heap -> ptr -> string ->
    option (GitObject (list Byte.byte) (list Byte.byte) (list Byte.byte)
            * option error * heap) :=
  normalize (list Byte.byte) (list Byte.byte) (list Byte.byte) [] [] []
    sample_parseCommit sample_parseTree sample_parseBlob sample_String.

(** Two storage directories.  Both hold the archives [a] and [b], which
    verify; [repo] also holds [c] and [d], which the verifier rejects, and a
    file that is no archive. *)
Definition sample_path_Join (elems : list string) : string := String.concat "/" elems.

Definition sample_ReadDir (path : string) : list string + error :=
  if String.eqb path "repo/objects/pack"
  then inl ["README"; "a.idx"; "a.pack"; "b.idx"; "b.pack"; "c.idx"; "c.pack";
            "d.idx"; "d.pack"]
  else if String.eqb path "good/objects/pack"
  then inl ["a.idx"; "a.pack"; "b.idx"; "b.pack"]
  else inr (Foreign "open: no such file or directory").

Definition sample_open_error (path : string) : option string := None.

Definition sample_objs_a : list packObject :=
  [decoded "aa11" OBJ_BLOB (Some [Byte.x01]) "" 0;
   decoded "ab22" OBJ_REF_DELTA (Some [Byte.x00]) "aa11" 1].

Definition sample_objs_b : list packObject :=
  [decoded "bb33" OBJ_TREE (Some [Byte.x02]) "" 0].

Definition sample_verify (pack idx : string) : list packObject + string :=
  if strings_HasSuffix pack "/a.pack" then inl sample_objs_a
  else if strings_HasSuffix pack "/b.pack" then inl sample_objs_b
  else inr "pack: bad checksum".

Definition sample_world : world := mkWorld 3 [].

Definition sample_searchPacks : SHA -> string -> world ->
    (option packObject * option error) * world :=
  searchPacks sample_path_Join sample_ReadDir sample_open_error sample_verify.

(** ** Vocabulary for further statements about the resolver *)

(** The fields decoding fills in: all but [PatchedData], [BaseObjectType]
    and [Depth]. *)
Definition same_decoded (a b : packObject) : Prop :=
  Name a = Name b /\ Offset a = Offset b /\ Data a = Data b /\
  _type a = _type b /\ Size a = Size b /\
  SizeInPackfile a = SizeInPackfile b /\ negativeOffset a = negativeOffset b /\
  BaseObjectName a = BaseObjectName b /\ baseOffset a = baseOffset b /\
  err a = err b.

(** Two heaps hold objects at the same locations, with the same decoded
    fields. *)
Definition same_decoded_heap (h h1 : heap) : Prop :=
  forall q : ptr,
    match h !! q, h1 !! q with
    | Some a, Some b => same_decoded a b
    | None, None => True
    | _, _ => False
    end.

(** The chain of bases of a descriptor through the dictionary: the
    descriptor itself, its base, the base of its base, ... down to a
    full-content descriptor, the root. *)
Inductive chain (h : heap) (dict : dictionary) : ptr -> list ptr -> Prop :=
| chain_root (p : ptr) (po : packObject) :
    h !! p = Some po ->
    _type po < OBJ_OFS_DELTA ->
    chain h dict p [p]
| chain_hop (p b : ptr) (po : packObject) (l : list ptr) :
    h !! p = Some po ->
    OBJ_OFS_DELTA <= _type po ->
    dict !! BaseObjectName po = Some b ->
    chain h dict b l ->
    chain h dict p (p :: l).

(** The sum of the depths the descriptors of a chain were decoded with. *)
Fixpoint chain_depth (h : heap) (l : list ptr) : Z :=
  match l with
  | [] => 0
  | q :: l' =>
    match h !! q with
    | Some qo => Depth qo
    | None => 0
    end + chain_depth h l'
  end.

(** The payload resolution gives the head of a chain, read off the chain
    without [Patch]: a non-empty [PatchedData] as it is; else, for the
    root, its [Data]; else what the delta decoder makes of the payload of
    the rest of the chain and of the descriptor's own [Data], when it
    accepts them and its patched stream reads without error. *)
Fixpoint chain_payload
    (patchDelta : list Byte.byte -> list Byte.byte -> Reader + error)
    (h : heap) (l : list ptr) : option (list Byte.byte) :=
  match l with
  | [] => None
  | q :: l' =>
    match h !! q with
    | None => None
    | Some qo =>
      if negb (len (PatchedData qo) =? 0) then Some (contents (PatchedData qo))
      else
        match l' with
        | [] => Data qo
        | _ :: _ =>
          match chain_payload patchDelta h l' with
          | None => None
          | Some base =>
            match patchDelta base (contents (Data qo)) with
            | inr _ => None
            | inl patched =>
              match r_err patched with
              | Some _ => None
              | None => Some (r_data patched)
              end
            end
          end
        end
    end
  end.

(** A heap as decoding leaves it: no descriptor has patched data. *)
Definition fresh (h : heap) : Prop :=
  forall (q : ptr) (qo : packObject), h !! q = Some qo -> PatchedData qo = None.

(** ** Vocabulary for further statements about the locator *)

(** The files a sequence of events opens, in order. *)
Fixpoint opened_files (evs : list event) : list File :=
  match evs with
  | [] => []
  | EvOpen f :: evs' => f :: opened_files evs'
  | _ :: evs' => opened_files evs'
  end.

(** ** More sample data *)

(** Two deltas that are each the base of the other. *)
Definition cyclic_dict : dictionary := <["x" := 0%nat]> (<["y" := 1%nat]> ∅).

Definition cyclic_heap : heap :=
  <[0%nat := decoded "x" OBJ_REF_DELTA (Some [Byte.x00]) "y" 1]>
  (<[1%nat := decoded "y" OBJ_REF_DELTA (Some [Byte.x00]) "x" 1]> ∅).

(** A delta on a blob that was decoded without data. *)
Definition nodata_heap : heap :=
  <[0%nat := decoded "a" OBJ_BLOB None "" 0]>
  (<[1%nat := decoded "b" OBJ_REF_DELTA (Some [Byte.x00]) "a" 1]> ∅).

(** A delta decoder whose patched stream breaks after one byte. *)
Definition truncating_patchDelta (base delta : list Byte.byte) : Reader + error :=
  inl (mkReader [Byte.x01] (Some (Foreign "unexpected EOF"))).

(** A heap with one commit, as decoded. *)
Definition commit_heap : heap :=
  <[0%nat := decoded "aa11" OBJ_COMMIT (Some [Byte.x63]) "" 0]> ∅.

(** A directory without archives. *)
Definition bare_ReadDir (path : string) : list string + error :=
  inl ["README"; "pack-1.idx"].

(** * Properties *)

(** ** Delta resolution *)

Section ResolverFacts.

Variable patchDelta : list Byte.byte -> list Byte.byte -> Reader + error.

(** A descriptor that is a delta ([p._type >= OBJ_OFS_DELTA]) passes both
    kind tests of [Patch]. *)
Lemma delta_kind_tests (t : packObjectType) :
  OBJ_OFS_DELTA <= t -> (t <? OBJ_OFS_DELTA) = false /\ (t >=? OBJ_OFS_DELTA) = true.
Proof. intros Ht. split; [apply Z.ltb_ge | apply Z.geb_le]; exact Ht. Qed.

Lemma len_zero_test (b : bytes) : len b = 0 -> negb (len b =? 0) = false.
Proof. intros ->. reflexivity. Qed.

Lemma len_nonzero_test (b : bytes) : len b <> 0 -> negb (len b =? 0) = true.
Proof. intros Hb. destruct (Z.eqb_spec (len b) 0); [contradiction | reflexivity]. Qed.

(** The memoisation test: a non-empty [PatchedData] ends the call at once. *)
Lemma Patch_resolved (f : nat) (h : heap) (p : ptr) (dict : dictionary)
    (po : packObject) :
  h !! p = Some po ->
  len (PatchedData po) <> 0 ->
  Patch patchDelta (S f) h p dict = (Ok, h).
Proof.
  intros Hp Hlen. cbn [Patch]. rewrite Hp, (len_nonzero_test _ Hlen). reflexivity.
Qed.

(** The delta branch of [Patch], once the base has been patched.  The reads
    of [base] after the writes to [p] see the same fields even when the two
    pointers are equal, so the three writes collapse to one. *)
Lemma Patch_delta_step (f : nat) (h h1 : heap) (p b : ptr) (dict : dictionary)
    (po po1 bo : packObject) :
  h !! p = Some po ->
  len (PatchedData po) = 0 ->
  OBJ_OFS_DELTA <= _type po ->
  dict !! BaseObjectName po = Some b ->
  Patch patchDelta f h b dict = (Ok, h1) ->
  h1 !! b = Some bo ->
  h1 !! p = Some po1 ->
  Patch patchDelta (S f) h p dict =
    match patchDelta (contents (PatchedData bo)) (contents (Data po1)) with
    | inr e => (Err e, h1)
    | inl patched =>
      match r_err patched with
      | Some e => (Err e, <[p := set_PatchedData (Some (r_data patched)) po1]> h1)
      | None =>
        (Ok, <[p := set_Depth (wrap_int (Depth po1 + Depth bo))
                      (set_BaseObjectType (BaseObjectType bo)
                         (set_PatchedData (Some (r_data patched)) po1))]> h1)
      end
    end.
Proof.
  intros Hp Hlen Ht Hd Hb Hbo Hp1.
  destruct (delta_kind_tests _ Ht) as [Hlt Hge].
  cbn [Patch]. rewrite Hp, (len_zero_test _ Hlen), Hlt, Hge, Hd, Hb, Hbo, Hp1.
  destruct (patchDelta _ _) as [patched|e]; [|reflexivity].
  cbn [ioutil_ReadAll]. destruct (r_err patched) as [e|]; [reflexivity|].
  destruct (decide (p = b)) as [->|Hne].
  - assert (bo = po1) as -> by congruence.
    rewrite !lookup_insert_eq. cbn. rewrite !insert_insert_eq. reflexivity.
  - repeat first [ rewrite lookup_insert_ne by exact Hne
                   | rewrite Hbo
                   | rewrite insert_insert_eq ].
    reflexivity.
Qed.

(** [Patch] never frees an object: a pointer that was valid stays valid. *)
Lemma Patch_keeps_valid (f : nat) :
  forall (h h1 : heap) (q p : ptr) (dict : dictionary) (r : outcome),
    Patch patchDelta f h q dict = (r, h1) ->
    is_Some (h !! p) -> is_Some (h1 !! p).
Proof.
  induction f as [|f IH]; intros h h1 q p dict r HP Hv; cbn [Patch] in HP.
  - injection HP as <- <-. exact Hv.
  - destruct (h !! q) as [qo|] eqn:Hq; [|injection HP as <- <-; exact Hv].
    destruct (negb _); [injection HP as <- <-; exact Hv|].
    destruct (_ <? _).
    { destruct (Data qo); injection HP as <- <-; [|exact Hv].
      rewrite lookup_insert. case_decide; eauto. }
    destruct (_ >=? _); [|injection HP as <- <-; exact Hv].
    destruct (dict !! _) as [b|]; [|injection HP as <- <-; exact Hv].
    destruct (Patch patchDelta f h b dict) as [r0 h0] eqn:Hb.
    pose proof (IH _ _ _ p _ _ Hb Hv) as Hv0.
    assert (forall x, is_Some (<[q := x]> h0 !! p)) as Hins.
    { intros x. rewrite lookup_insert. case_decide; eauto. }
    assert (forall x y, is_Some (<[q := x]> (<[q := y]> h0) !! p)) as Hins2.
    { intros x y. rewrite lookup_insert. case_decide; eauto. }
    assert (forall x y z, is_Some (<[q := x]> (<[q := y]> (<[q := z]> h0)) !! p)) as Hins3.
    { intros x y z. rewrite lookup_insert. case_decide; eauto. }
    destruct r0; try (injection HP as <- <-; exact Hv0).
    destruct (h0 !! b); [|injection HP as <- <-; exact Hv0].
    destruct (h0 !! q); [|injection HP as <- <-; exact Hv0].
    destruct (patchDelta _ _); [|injection HP as <- <-; exact Hv0].
    cbn [ioutil_ReadAll] in HP.
    destruct (r_err _); [injection HP as <- <-; apply Hins|].
    destruct (_ !! b); [|injection HP as <- <-; apply Hins].
    destruct (_ !! b); [|injection HP as <- <-; apply Hins2].
    injection HP as <- <-. apply Hins3.
Qed.

(** More fuel does not change a call that came to an end. *)
Lemma Patch_fuel_mono (f : nat) :
  forall (h h1 : heap) (q : ptr) (dict : dictionary) (r : outcome),
    Patch patchDelta f h q dict = (r, h1) ->
    r <> OutOfFuel ->
    forall g : nat, (f <= g)%nat -> Patch patchDelta g h q dict = (r, h1).
Proof.
  induction f as [|f IH]; intros h h1 q dict r HP Hr g Hg; cbn [Patch] in HP.
  - injection HP as <- <-. contradiction.
  - destruct g as [|g]; [lia|]. cbn [Patch].
    destruct (h !! q) as [qo|]; [|exact HP].
    destruct (negb _); [exact HP|].
    destruct (_ <? _); [exact HP|].
    destruct (_ >=? _); [|exact HP].
    destruct (dict !! _) as [b|]; [|exact HP].
    destruct (Patch patchDelta f h b dict) as [r0 h0] eqn:Hb.
    destruct r0.
    + rewrite (IH _ _ _ _ _ Hb ltac:(discriminate) g ltac:(lia)). exact HP.
    + rewrite (IH _ _ _ _ _ Hb ltac:(discriminate) g ltac:(lia)). exact HP.
    + rewrite (IH _ _ _ _ _ Hb ltac:(discriminate) g ltac:(lia)). exact HP.
    + injection HP as <- <-. contradiction.
Qed.

(** A successful call returns with its receiver valid. *)
Lemma Patch_Ok_receiver (f : nat) (h h1 : heap) (q : ptr) (dict : dictionary) :
  Patch patchDelta f h q dict = (Ok, h1) -> is_Some (h1 !! q).
Proof.
  intros HP. apply (Patch_keeps_valid f h h1 q q dict Ok HP).
  destruct f as [|f]; cbn [Patch] in HP; [discriminate|].
  destruct (h !! q); [eauto | discriminate].
Qed.

Section Frame.

(** An unresolved delta [p] whose base is [b]. *)
Variables (h : heap) (dict : dictionary) (p b : ptr) (po : packObject).
Hypothesis Hp : h !! p = Some po.
Hypothesis Hlen : len (PatchedData po) = 0.
Hypothesis Hkind : OBJ_OFS_DELTA <= _type po.
Hypothesis Hbase : dict !! BaseObjectName po = Some b.

(** A successful call either leaves [p] alone or went through [p], and then
    through a successful call on [b] with less fuel, from the same heap:
    nothing is written before the innermost call returns. *)
Lemma Patch_descent (f : nat) :
  forall (q : ptr) (h1 : heap),
    Patch patchDelta f h q dict = (Ok, h1) ->
    h1 !! p = Some po \/
    exists (f' : nat) (h' : heap),
      (f' < f)%nat /\ Patch patchDelta f' h b dict = (Ok, h').
Proof.
  destruct (delta_kind_tests _ Hkind) as [Hlt Hge].
  induction f as [|f IH]; intros q h1 HP; cbn [Patch] in HP; [discriminate|].
  destruct (decide (q = p)) as [->|Hne].
  - right. rewrite Hp, (len_zero_test _ Hlen), Hlt, Hge, Hbase in HP.
    destruct (Patch patchDelta f h b dict) as [r0 h0] eqn:Hb.
    destruct r0; try discriminate. exists f, h0. split; [lia | exact Hb].
  - clear Hlt Hge.
    destruct (h !! q) as [qo|]; [|discriminate].
    destruct (negb _); [left; congruence|].
    destruct (_ <? _).
    { destruct (Data qo); [|discriminate]. left.
      assert (h1 = <[q := set_BaseObjectType (_type qo)
                            (set_PatchedData (Some l) qo)]> h) as -> by congruence.
      rewrite lookup_insert_ne by exact Hne. exact Hp. }
    destruct (_ >=? _); [|left; congruence].
    destruct (dict !! BaseObjectName qo) as [bq|]; [|discriminate].
    destruct (Patch patchDelta f h bq dict) as [r0 h0] eqn:Hb.
    destruct r0; try discriminate.
    destruct (IH _ _ Hb) as [Hsame|(f' & h' & Hlt' & Hb')].
    + left.
      destruct (h0 !! bq); [|discriminate].
      destruct (h0 !! q); [|discriminate].
      destruct (patchDelta _ _); [|discriminate].
      cbn [ioutil_ReadAll] in HP.
      destruct (r_err _); [discriminate|].
      destruct (_ !! bq); [|discriminate].
      destruct (_ !! bq); [|discriminate].
      match type of HP with (Ok, ?h2) = _ => assert (h1 = h2) as -> by congruence end.
      rewrite !lookup_insert_ne by exact Hne. exact Hsame.
    + right. exists f', h'. split; [lia | exact Hb'].
Qed.

(** Patching the base of an unresolved delta does not touch the delta: a
    chain of bases that came back to it would never end. *)
Lemma Patch_base_frame (f : nat) :
  forall h1 : heap,
    Patch patchDelta f h b dict = (Ok, h1) -> h1 !! p = Some po.
Proof.
  induction f as [f IH] using lt_wf_ind. intros h1 HP.
  destruct (Patch_descent f b h1 HP) as [Hsame|(f' & h' & Hlt' & Hb')];
    [exact Hsame|].
  pose proof (Patch_fuel_mono f' _ _ _ _ _ Hb' ltac:(discriminate) f ltac:(lia)) as HP'.
  rewrite HP in HP'. injection HP' as ->. exact (IH f' Hlt' h' Hb').
Qed.

End Frame.

(** C2 (as amended).  For a delta descriptor [p] not yet resolved whose base
    [b] is in the dictionary and resolves, and whose delta applies and
    reads without error, [Patch] succeeds and leaves in [p.Depth] the sum,
    in Go's [int], of the depth [p] had before the call and of the depth of
    the base after its resolution: [p.Depth += base.Depth]. *)
Theorem Patch_delta_depth_adds (f : nat) (h h1 : heap) (p b : ptr)
    (dict : dictionary) (po bo : packObject) (patched : Reader) :
  h !! p = Some po ->
  len (PatchedData po) = 0 ->
  OBJ_OFS_DELTA <= _type po ->
  dict !! BaseObjectName po = Some b ->
  Patch patchDelta f h b dict = (Ok, h1) ->
  h1 !! b = Some bo ->
  patchDelta (contents (PatchedData bo)) (contents (Data po)) = inl patched ->
  r_err patched = None ->
  exists (h2 : heap) (po' : packObject),
    Patch patchDelta (S f) h p dict = (Ok, h2) /\
    h2 !! p = Some po' /\
    Depth po' = wrap_int (Depth po + Depth bo).
Proof.
  intros Hp Hlen Ht Hd Hb Hbo Hpd Hre.
  pose proof (Patch_base_frame h dict p b po Hp Hlen Ht Hd f h1 Hb) as Hp1.
  rewrite (Patch_delta_step f h h1 p b dict po po bo Hp Hlen Ht Hd Hb Hbo Hp1).
  rewrite Hpd, Hre. eexists _, _. split; [reflexivity|].
  split; [apply lookup_insert_eq | reflexivity].
Qed.

(** The delta branch over a base whose [PatchedData] is not empty, on its
    two paths that leave the descriptor as resolution means it to be: when
    the delta applies and reads without error, [Patch] succeeds, changes
    [p] only, and leaves in it the base's [BaseObjectType] and the bytes
    the delta decoder produced from the base's [PatchedData] and [p.Data];
    when the call of the delta decoder itself fails, its error is returned
    and the heap is as before.  The third path, a patched stream that
    fails while it is read, is [Patch_read_error_keeps_bytes] below. *)
Lemma Patch_delta_of_resolved_base (f : nat) (h : heap) (p b : ptr)
    (dict : dictionary) (po bo : packObject) :
  h !! p = Some po ->
  len (PatchedData po) = 0 ->
  OBJ_OFS_DELTA <= _type po ->
  dict !! BaseObjectName po = Some b ->
  h !! b = Some bo ->
  len (PatchedData bo) <> 0 ->
  (forall patched : Reader,
      patchDelta (contents (PatchedData bo)) (contents (Data po)) = inl patched ->
      r_err patched = None ->
      exists po' : packObject,
        Patch patchDelta (S (S f)) h p dict = (Ok, <[p := po']> h) /\
        BaseObjectType po' = BaseObjectType bo /\
        PatchedType po' = BaseObjectType bo /\
        PatchedData po' = Some (r_data patched)) /\
  (forall e : error,
      patchDelta (contents (PatchedData bo)) (contents (Data po)) = inr e ->
      Patch patchDelta (S (S f)) h p dict = (Err e, h)).
Proof.
  intros Hp Hlen Ht Hd Hbo Hres.
  pose proof (Patch_resolved f h b dict bo Hbo Hres) as Hb.
  pose proof (Patch_delta_step (S f) h h p b dict po po bo Hp Hlen Ht Hd Hb Hbo Hp)
    as Hstep.
  split.
  - intros patched Hpd Hre. rewrite Hstep, Hpd, Hre.
    eexists. split; [reflexivity|]. split; [reflexivity|]. split; [|reflexivity].
    unfold PatchedType. cbn [_type set_Depth set_BaseObjectType set_PatchedData].
    rewrite (proj1 (delta_kind_tests _ Ht)). reflexivity.
  - intros e Hpd. rewrite Hstep, Hpd. reflexivity.
Qed.

(** The delta decoder succeeded but reading its patched stream fails: the
    read error is returned, and as [p.PatchedData] is assigned together
    with [err], the bytes read so far are in the descriptor. *)
Lemma Patch_read_error_keeps_bytes (f : nat) (h : heap) (p b : ptr)
    (dict : dictionary) (po bo : packObject) (patched : Reader) (e : error) :
  h !! p = Some po ->
  len (PatchedData po) = 0 ->
  OBJ_OFS_DELTA <= _type po ->
  dict !! BaseObjectName po = Some b ->
  h !! b = Some bo ->
  len (PatchedData bo) <> 0 ->
  patchDelta (contents (PatchedData bo)) (contents (Data po)) = inl patched ->
  r_err patched = Some e ->
  Patch patchDelta (S (S f)) h p dict
    = (Err e, <[p := set_PatchedData (Some (r_data patched)) po]> h).
Proof.
  intros Hp Hlen Ht Hd Hbo Hres Hpd Hre.
  pose proof (Patch_resolved f h b dict bo Hbo Hres) as Hb.
  rewrite (Patch_delta_step (S f) h h p b dict po po bo Hp Hlen Ht Hd Hb Hbo Hp).
  rewrite Hpd, Hre. reflexivity.
Qed.

(** C6.  For a delta descriptor not yet resolved whose [BaseObjectName] is
    not a key of the dictionary, [Patch] returns the error
    "base object not in dictionary: <name>" and the heap is as before, so
    the descriptor is unchanged and its [PatchedData] still unset. *)
Theorem Patch_unknown_base (f : nat) (h : heap) (p : ptr) (dict : dictionary)
    (po : packObject) :
  h !! p = Some po ->
  len (PatchedData po) = 0 ->
  OBJ_OFS_DELTA <= _type po ->
  dict !! BaseObjectName po = None ->
  Patch patchDelta (S f) h p dict =
    (Err (Errorf (String.append "base object not in dictionary: " (BaseObjectName po))), h).
Proof.
  intros Hp Hlen Ht Hd. destruct (delta_kind_tests _ Ht) as [Hlt Hge].
  cbn [Patch]. rewrite Hp, (len_zero_test _ Hlen), Hlt, Hge, Hd. reflexivity.
Qed.


End ResolverFacts.

(** *** The resolver on the sample chain *)

Lemma Patch_delta_depth_adds_witness :
  exists (h2 : heap) (po' : packObject),
    Patch sample_patchDelta 2 sample_heap 1%nat sample_dict = (Ok, h2) /\
    h2 !! 1%nat = Some po' /\
    Depth po' = wrap_int (1 + 0).
Proof.
  apply (Patch_delta_depth_adds sample_patchDelta 1 sample_heap
           (snd (Patch sample_patchDelta 1 sample_heap 0%nat sample_dict))
           1%nat 0%nat sample_dict
           (decoded "b" OBJ_REF_DELTA (Some [Byte.x00]) "a" 1)
           (set_BaseObjectType OBJ_BLOB
              (set_PatchedData (Some [Byte.x01])
                 (decoded "a" OBJ_BLOB (Some [Byte.x01]) "" 0)))
           (mkReader [] None));
    vm_compute; solve [reflexivity | discriminate].
Defined.

(** C2, counterexample.  On the sample chain, patching the delta [b], whose
    descriptor came with depth 1, over the blob [a] of depth 0 succeeds and
    leaves depth 1 in [b], not the depth 0 of its base. *)
Lemma Patch_delta_depth_counterexample :
  fst (Patch sample_patchDelta 2 sample_heap 1%nat sample_dict) = Ok /\
  Depth <$> snd (Patch sample_patchDelta 2 sample_heap 1%nat sample_dict) !! 1%nat
    = Some 1 /\
  Depth <$> snd (Patch sample_patchDelta 2 sample_heap 1%nat sample_dict) !! 0%nat
    = Some 0 /\
  Depth <$> snd (Patch sample_patchDelta 2 sample_heap 1%nat sample_dict) !! 1%nat
    <> Depth <$> snd (Patch sample_patchDelta 2 sample_heap 1%nat sample_dict) !! 0%nat.
Proof. vm_compute. repeat split. discriminate. Qed.

(** C3, the code at the failing input.  On the sample chain the payload of
    [d] resolves to the empty byte sequence.  The first call of [Patch] on
    [d] succeeds and leaves depth 2.  As [len(p.PatchedData)] is then 0, a
    second call does not return at once: with the same dictionary it
    resolves [d] again and leaves depth 3, and with a dictionary that lacks
    the base it returns an error. *)
Theorem Patch_empty_payload_resolved_again :
  let first := Patch sample_patchDelta 3 sample_heap 2%nat sample_dict in
  let second := Patch sample_patchDelta 3 (snd first) 2%nat sample_dict in
  fst first = Ok /\
  PatchedData <$> snd first !! 2%nat = Some (Some []) /\
  BaseObjectType <$> snd first !! 2%nat = Some OBJ_BLOB /\
  Depth <$> snd first !! 2%nat = Some 2 /\
  fst second = Ok /\
  PatchedData <$> snd second !! 2%nat = Some (Some []) /\
  Depth <$> snd second !! 2%nat = Some 3 /\
  fst (Patch sample_patchDelta 3 (snd first) 2%nat ∅)
    = Err (Errorf "base object not in dictionary: b").
Proof. vm_compute. repeat split. Qed.


Lemma Patch_delta_of_resolved_base_witness :
  (forall patched : Reader,
      sample_patchDelta [] [Byte.x00] = inl patched ->
      r_err patched = None ->
      exists po' : packObject,
        Patch sample_patchDelta 2 sample_heap_a 1%nat sample_dict
          = (Ok, <[1%nat := po']> sample_heap_a) /\
        BaseObjectType po' = OBJ_BLOB /\
        PatchedType po' = OBJ_BLOB /\
        PatchedData po' = Some (r_data patched)) /\
  (forall e : error,
      sample_patchDelta [] [Byte.x00] = inr e ->
      Patch sample_patchDelta 2 sample_heap_a 1%nat sample_dict = (Err e, sample_heap_a)).
Proof.
  apply (Patch_delta_of_resolved_base sample_patchDelta 0 sample_heap_a 1%nat 0%nat
           sample_dict
           (decoded "b" OBJ_REF_DELTA (Some [Byte.x00]) "a" 1)
           (set_BaseObjectType OBJ_BLOB
              (set_PatchedData (Some [Byte.x01])
                 (decoded "a" OBJ_BLOB (Some [Byte.x01]) "" 0))));
    vm_compute; solve [reflexivity | discriminate].
Defined.

(** C5, the code at the failing input.  On the sample chain with the blob
    [a] resolved and a delta decoder whose patched stream breaks after one
    byte, [Patch] on the delta [b] returns the read error, yet the byte
    read is already in [b.PatchedData], while [b.BaseObjectType] was not
    assigned; a second call then finds [PatchedData] non-empty and returns
    nil, with the broken payload as the resolved one. *)
Theorem Patch_failed_read_sets_payload :
  let first := Patch truncating_patchDelta 2 sample_heap_a 1%nat sample_dict in
  let second := Patch truncating_patchDelta 2 (snd first) 1%nat sample_dict in
  PatchedData <$> sample_heap_a !! 1%nat = Some None /\
  fst first = Err (Foreign "unexpected EOF") /\
  PatchedData <$> snd first !! 1%nat = Some (Some [Byte.x01]) /\
  BaseObjectType <$> snd first !! 1%nat = Some 0 /\
  fst second = Ok /\
  PatchedData <$> snd second !! 1%nat = Some (Some [Byte.x01]).
Proof. vm_compute. repeat split. Qed.

Lemma Patch_unknown_base_witness :
  Patch sample_patchDelta 1 sample_heap 1%nat ∅ =
    (Err (Errorf "base object not in dictionary: a"), sample_heap).
Proof.
  apply (Patch_unknown_base sample_patchDelta 0 sample_heap 1%nat ∅
           (decoded "b" OBJ_REF_DELTA (Some [Byte.x00]) "a" 1));
    vm_compute; solve [reflexivity | discriminate].
Defined.

(** ** Type normalisation *)

Section NormalizerFacts.

Variables Commit Tree Blob : Type.
Variable Commit_zero : Commit.
Variable Tree_zero : Tree.
Variable Blob_zero : Blob.
Variable parseCommit : list Byte.byte -> string -> SHA -> Commit * option error.
Variable parseTree : list Byte.byte -> string -> string -> Tree * option error.
Variable parseBlob : list Byte.byte -> string -> Blob * option error.
Variable packObjectType_String : packObjectType -> string.

#[local] Abbreviation normalize' :=
  (normalize Commit Tree Blob Commit_zero Tree_zero Blob_zero
     parseCommit parseTree parseBlob packObjectType_String).

(** C1 (as amended).  [normalize] dispatches on the kind [_type] the
    descriptor was decoded with and never looks at the resolved kind.  A
    descriptor whose [_type] is commit, tree or blob goes to the parser of
    that kind, with [PatchedData] as payload, or [Data] when [PatchedData]
    is nil; every other descriptor, and so every delta descriptor whatever
    kind it resolved to, is returned as it is, as the generic object, with
    no error and the heap unchanged. *)
Theorem normalize_dispatches_on_type (h : heap) (p : ptr) (po : packObject)
    (basedir : string) :
  h !! p = Some po ->
  let po' := fst (fallback h p po) in
  let h' := snd (fallback h p po) in
  (_type po = OBJ_COMMIT ->
   normalize' h p basedir =
     Some (GitCommit
             (fst (parseCommit (contents (PatchedData po')) (strconv_Itoa (Size po'))
                     (Name po'))),
           snd (parseCommit (contents (PatchedData po')) (strconv_Itoa (Size po'))
                  (Name po')),
           h')) /\
  (_type po = OBJ_TREE ->
   normalize' h p basedir =
     Some (GitTree
             (fst (parseTree (contents (PatchedData po')) (strconv_Itoa (Size po'))
                     basedir)),
           snd (parseTree (contents (PatchedData po')) (strconv_Itoa (Size po'))
                  basedir),
           h')) /\
  (_type po = OBJ_BLOB ->
   normalize' h p basedir =
     Some (GitBlob (fst (parseBlob (contents (PatchedData po')) basedir)),
           snd (parseBlob (contents (PatchedData po')) basedir),
           h')) /\
  (_type po <> OBJ_COMMIT -> _type po <> OBJ_TREE -> _type po <> OBJ_BLOB ->
   normalize' h p basedir = Some (GitPackObject p, None, h)) /\
  (OBJ_OFS_DELTA <= _type po ->
   normalize' h p basedir = Some (GitPackObject p, None, h)).
Proof.
  intros Hp po' h'. subst po' h'.
  assert (forall t : packObjectType,
             _type po <> t -> (_type po =? t) = false) as Hne
    by (intros t Ht; apply Z.eqb_neq; exact Ht).
  assert (_type po <> OBJ_COMMIT -> _type po <> OBJ_TREE -> _type po <> OBJ_BLOB ->
          normalize' h p basedir = Some (GitPackObject p, None, h)) as Hother.
  { intros H1 H2 H3. unfold normalize. rewrite Hp, !Hne by assumption. reflexivity. }
  repeat split.
  - intros Ht. unfold normalize, packObject_Commit. rewrite Hp, Ht. cbn [Z.eqb Pos.eqb negb OBJ_COMMIT].
    destruct (fallback h p po) as [po' h']. cbn [fst snd].
    destruct (parseCommit _ _ _). reflexivity.
  - intros Ht. unfold normalize, packObject_Tree. rewrite Hp, Ht. cbn [Z.eqb Pos.eqb negb OBJ_TREE OBJ_COMMIT].
    destruct (fallback h p po) as [po' h']. cbn [fst snd].
    destruct (parseTree _ _ _). reflexivity.
  - intros Ht. unfold normalize, packObject_Blob. rewrite Hp, Ht. cbn [Z.eqb Pos.eqb negb OBJ_BLOB OBJ_TREE OBJ_COMMIT].
    destruct (fallback h p po) as [po' h']. cbn [fst snd].
    destruct (parseBlob _ _). reflexivity.
  - exact Hother.
  - intros Ht. apply Hother; unfold OBJ_COMMIT, OBJ_TREE, OBJ_BLOB, OBJ_OFS_DELTA in *; lia.
Qed.

End NormalizerFacts.

Lemma normalize_dispatches_on_type_witness :
  sample_normalize (<[0%nat := decoded "aa11" OBJ_COMMIT (Some [Byte.x63]) "" 0]> ∅)
    0%nat "repo"
  = Some (GitCommit [Byte.x63], None,
          <[0%nat := set_PatchedData (Some [Byte.x63])
                       (decoded "aa11" OBJ_COMMIT (Some [Byte.x63]) "" 0)]>
            (<[0%nat := decoded "aa11" OBJ_COMMIT (Some [Byte.x63]) "" 0]> ∅)).
Proof.
  refine (proj1 (normalize_dispatches_on_type
                   (list Byte.byte) (list Byte.byte) (list Byte.byte) [] [] []
                   sample_parseCommit sample_parseTree sample_parseBlob sample_String
                   (<[0%nat := decoded "aa11" OBJ_COMMIT (Some [Byte.x63]) "" 0]> ∅)
                   0%nat (decoded "aa11" OBJ_COMMIT (Some [Byte.x63]) "" 0) "repo" _) _);
    vm_compute; reflexivity.
Defined.

(** C1, counterexample.  A delta descriptor that resolved to a commit, so
    that [PatchedType] gives [OBJ_COMMIT], is not sent to the commit
    parser: [normalize] returns the descriptor itself. *)
Lemma normalize_resolved_delta_counterexample :
  OBJ_OFS_DELTA <= _type resolved_commit_delta /\
  PatchedType resolved_commit_delta = OBJ_COMMIT /\
  sample_normalize (<[0%nat := resolved_commit_delta]> ∅) 0%nat "repo"
    = Some (GitPackObject 0%nat, None, <[0%nat := resolved_commit_delta]> ∅) /\
  sample_normalize (<[0%nat := resolved_commit_delta]> ∅) 0%nat "repo"
    <> Some (GitCommit [Byte.x63], None, <[0%nat := resolved_commit_delta]> ∅).
Proof.
  split; [vm_compute; discriminate|]. split; [reflexivity|].
  assert (sample_normalize (<[0%nat := resolved_commit_delta]> ∅) 0%nat "repo"
          = Some (GitPackObject 0%nat, None, <[0%nat := resolved_commit_delta]> ∅)) as E
    by reflexivity.
  split; [exact E|]. rewrite E. discriminate.
Qed.

(** ** Pack locator *)

Lemma strings_HasPrefix_empty (s : string) : strings_HasPrefix s "" = true.
Proof. destruct s; reflexivity. Qed.

Lemma verified_paths_app (evs1 evs2 : list event) :
  verified_paths (evs1 ++ evs2) = (verified_paths evs1 ++ verified_paths evs2)%list.
Proof.
  induction evs1 as [|[f|pf inf|f] evs1 IH]; cbn [verified_paths app];
    rewrite ?IH; reflexivity.
Qed.

Section LocatorFacts.

Variable path_Join : list string -> string.
Variable ioutil_ReadDir : string -> list string + error.
Variable open_error : string -> option string.
Variable verify : string -> string -> list packObject + string.

Variable basedir : string.

#[local] Abbreviation loop := (objInPacks_loop path_Join open_error verify).
#[local] Abbreviation lists := (archive_lists path_Join open_error verify basedir).
#[local] Abbreviation fails := (archive_fails path_Join open_error verify basedir).
#[local] Abbreviation pack_of := (pack_path path_Join basedir).
#[local] Abbreviation idx_of := (idx_path path_Join basedir).
#[local] Abbreviation after_archive := (after_archive path_Join basedir).
#[local] Abbreviation after_archives := (after_archives path_Join basedir).

(** One turn of the loop on an archive that opens and verifies. *)
Lemma loop_archive_lists (object : SHA) (name : SHA) (objs : list packObject) (rest : list SHA)
    (deferred : list File) (w : world) :
  lists name objs ->
  loop (name :: rest) object basedir deferred w =
    match first_match object objs with
    | Some obj =>
      ((Some obj, None), fst (after_archive name (deferred, w)),
       snd (after_archive name (deferred, w)))
    | None =>
      loop rest object basedir (fst (after_archive name (deferred, w)))
        (snd (after_archive name (deferred, w)))
    end.
Proof.
  intros (Hpack & Hidx & Hver).
  unfold pack_path in Hpack. unfold idx_path in Hidx.
  unfold pack_path, idx_path in Hver.
  cbn [objInPacks_loop]. unfold os_Open at 1. rewrite Hpack.
  unfold os_Open at 1. cbn [next_fd events]. rewrite Hidx.
  unfold VerifyPack. cbn [fname]. rewrite Hver.
  unfold first_match, after_archive, emit, pack_path, idx_path.
  cbn [next_fd events fst snd]. rewrite <- !app_assoc. reflexivity.
Qed.

(** One turn of the loop on an archive that fails: the error is returned
    and the rest of the list plays no part. *)
Lemma loop_archive_fails (object : SHA) (name : SHA) (tag : string) (rest : list SHA)
    (deferred : list File) (w : world) :
  fails name tag ->
  loop (name :: rest) object basedir deferred w
    = loop [name] object basedir deferred w /\
  fst (fst (loop (name :: rest) object basedir deferred w))
    = (None, Some (Foreign tag)).
Proof.
  unfold archive_fails, pack_path, idx_path.
  intros [Hpack|[(Hpack & Hidx)|(Hpack & Hidx & Hver)]];
    cbn [objInPacks_loop]; unfold os_Open; rewrite Hpack; cbn [next_fd events].
  - split; reflexivity.
  - rewrite Hidx. split; reflexivity.
  - rewrite Hidx. unfold VerifyPack. cbn [fname]. rewrite Hver. split; reflexivity.
Qed.

(** Archives that verify and hold no match are passed over. *)
Lemma loop_skips (object : SHA) (pre : list SHA) :
  Forall (fun name => exists objs, lists name objs /\ first_match object objs = None) pre ->
  forall (rest : list SHA) (deferred : list File) (w : world),
    loop (pre ++ rest) object basedir deferred w =
    loop rest object basedir (fst (after_archives pre (deferred, w)))
      (snd (after_archives pre (deferred, w))).
Proof.
  induction 1 as [|name pre (objs & Hl & Hnone) _ IH]; intros rest deferred w.
  - reflexivity.
  - cbn [app]. rewrite (loop_archive_lists object name objs _ _ _ Hl), Hnone, IH.
    unfold after_archives. cbn [fold_left].
    destruct (after_archive name (deferred, w)). reflexivity.
Qed.

Lemma first_match_app (object : SHA) (objs rest : list packObject) :
  first_match object (objs ++ rest) =
    match first_match object objs with
    | Some obj => Some obj
    | None => first_match object rest
    end.
Proof.
  unfold first_match. induction objs as [|obj objs IH]; [reflexivity|].
  cbn [app find]. destruct (strings_HasPrefix _ _); [reflexivity | exact IH].
Qed.

(** Over archives that all verify, the loop returns the first match of the
    lists laid end to end, or the not-found error. *)
Lemma loop_all_verify (object : SHA) (packs : list SHA) (objss : list (list packObject)) :
  Forall2 lists packs objss ->
  forall (deferred : list File) (w : world),
    fst (fst (loop packs object basedir deferred w)) =
      match first_match object (concat objss) with
      | Some obj => (Some obj, None)
      | None => (None, Some (not_in_packfiles object))
      end.
Proof.
  induction 1 as [|name objs packs objss Hl _ IH]; intros deferred w.
  - reflexivity.
  - rewrite (loop_archive_lists object name objs _ _ _ Hl).
    cbn [concat]. rewrite first_match_app.
    destruct (first_match object objs); [reflexivity | apply IH].
Qed.

(** Without a match, the loop runs the verifier on every archive of the
    list, in order. *)
Lemma loop_scans_all (object : SHA) (packs : list SHA) (objss : list (list packObject)) :
  Forall2 lists packs objss ->
  first_match object (concat objss) = None ->
  forall (deferred : list File) (w : world),
    verified_paths (events (snd (loop packs object basedir deferred w))) =
      (verified_paths (events w)
       ++ map (fun name => (pack_of name, idx_of name)) packs)%list.
Proof.
  induction 1 as [|name objs packs objss Hl _ IH]; intros Hnone deferred w.
  - cbn. rewrite app_nil_r. reflexivity.
  - cbn [concat] in Hnone. rewrite first_match_app in Hnone.
    destruct (first_match object objs) eqn:Hobjs; [discriminate|].
    rewrite (loop_archive_lists object name objs _ _ _ Hl), Hobjs, (IH Hnone).
    cbn [after_archive snd events map]. rewrite verified_paths_app.
    cbn [verified_paths fname]. rewrite <- app_assoc. reflexivity.
Qed.

(** The deferred calls only close. *)
Lemma run_deferred_verified (deferred : list File) :
  forall w : world,
    verified_paths (events (run_deferred deferred w)) = verified_paths (events w).
Proof.
  induction deferred as [|f deferred IH]; intros w; [reflexivity|].
  cbn [run_deferred]. rewrite IH. unfold emit. cbn [events].
  rewrite verified_paths_app. cbn. apply app_nil_r.
Qed.

#[local] Abbreviation objInPacks' := (objInPacks path_Join open_error verify).
#[local] Abbreviation searchPacks' := (searchPacks path_Join ioutil_ReadDir open_error verify).
#[local] Abbreviation listPackfiles' := (listPackfiles path_Join ioutil_ReadDir).

Lemma objInPacks_fst (object : SHA) (packs : list SHA) (w : world) :
  fst (objInPacks' packs object basedir w)
    = fst (fst (loop packs object basedir [] w)).
Proof.
  unfold objInPacks. destruct (loop packs object basedir [] w) as [[r d] w'].
  reflexivity.
Qed.

(** C7.  When the archives enumerated before [name] open, verify and hold
    no match, and opening one of the two files of [name] fails or the
    verifier rejects [name], the search returns that very error, which is
    not the not-found error, and runs as if the enumeration ended at
    [name]: the archives after it are not opened. *)
Theorem searchPacks_aborts_on_failure (object : SHA) (pre post : list SHA) (name : SHA)
    (tag : string) (w : world) :
  listPackfiles' basedir = inl (pre ++ name :: post)%list ->
  Forall (fun n => exists objs, lists n objs /\ first_match object objs = None) pre ->
  fails name tag ->
  fst (searchPacks' object basedir w) = (None, Some (Foreign tag)) /\
  searchPacks' object basedir w = objInPacks' (pre ++ [name]) object basedir w /\
  Foreign tag <> not_in_packfiles object.
Proof.
  intros Hlist Hpre Hfail. unfold searchPacks. rewrite Hlist.
  assert (objInPacks' (pre ++ name :: post) object basedir w
          = objInPacks' (pre ++ [name]) object basedir w) as Hsame.
  { unfold objInPacks. rewrite !(loop_skips object pre Hpre).
    rewrite (proj1 (loop_archive_fails object name tag post _ _ Hfail)). reflexivity. }
  split; [|split; [exact Hsame | discriminate]].
  rewrite objInPacks_fst, (loop_skips object pre Hpre).
  apply (proj2 (loop_archive_fails object name tag post _ _ Hfail)).
Qed.

(** C8.  When every archive of the directory opens and verifies, the search
    returns the first descriptor, in the order of the enumeration and of
    the verifier's lists, whose name starts with the query; it returns the
    not-found error exactly when no descriptor of any archive matches, and
    then the verifier has been run on every archive of the directory. *)
Theorem searchPacks_first_match (object : SHA) (packs : list SHA) (objss : list (list packObject))
    (w : world) :
  listPackfiles' basedir = inl packs ->
  Forall2 lists packs objss ->
  fst (searchPacks' object basedir w) =
    match first_match object (concat objss) with
    | Some obj => (Some obj, None)
    | None => (None, Some (not_in_packfiles object))
    end /\
  (fst (searchPacks' object basedir w) = (None, Some (not_in_packfiles object)) <->
   Forall (fun obj => strings_HasPrefix (Name obj) object = false) (concat objss)) /\
  (first_match object (concat objss) = None ->
   verified_paths (events (snd (searchPacks' object basedir w))) =
     (verified_paths (events w)
      ++ map (fun name => (pack_of name, idx_of name)) packs)%list).
Proof.
  intros Hlist Hall. unfold searchPacks. rewrite Hlist.
  pose proof (loop_all_verify object packs objss Hall [] w) as Hres.
  rewrite <- objInPacks_fst in Hres.
  split; [exact Hres|]. split.
  - rewrite Hres. unfold first_match.
    destruct (find _ (concat objss)) as [obj|] eqn:Hfind.
    + split; [discriminate|]. intros Hno.
      apply find_some in Hfind as [Hin Hpre].
      rewrite Forall_forall in Hno. rewrite (Hno obj) in Hpre; [discriminate|].
      apply list_elem_of_In. exact Hin.
    + split; [|reflexivity]. intros _. apply Forall_forall. intros obj Hin.
      apply (find_none _ _ Hfind). apply list_elem_of_In. exact Hin.
  - intros Hnone. unfold objInPacks.
    pose proof (loop_scans_all object packs objss Hall Hnone [] w) as Hscan.
    destruct (loop packs object basedir [] w) as [[r d] w'].
    cbn [snd] in *. rewrite run_deferred_verified. exact Hscan.
Qed.

(** C10.  When the first archive of the enumeration opens and verifies and
    its list is not empty, the search for the empty string returns the
    first descriptor of that list, with no error: every name starts with
    the empty string, and no length is asked of the query. *)
Theorem searchPacks_empty_query (name : SHA) (rest : list SHA)
    (obj : packObject) (objs : list packObject) (w : world) :
  listPackfiles' basedir = inl (name :: rest) ->
  lists name (obj :: objs) ->
  fst (searchPacks path_Join ioutil_ReadDir open_error verify "" basedir w)
    = (Some obj, None).
Proof.
  intros Hlist Hl. unfold searchPacks. rewrite Hlist. unfold objInPacks.
  rewrite (loop_archive_lists "" name (obj :: objs) rest [] w Hl).
  unfold first_match. cbn [find]. rewrite strings_HasPrefix_empty. reflexivity.
Qed.

End LocatorFacts.

(** The loop itself never closes a handle: every [Close] is deferred to the
    return of [objInPacks]. *)
Lemma objInPacks_loop_never_closes (path_Join : list string -> string)
    (open_error : string -> option string)
    (verify : string -> string -> list packObject + string)
    (object : SHA) (basedir : string) (packs : list SHA) :
  forall (deferred : list File) (w : world),
  exists evs : list event,
    events (snd (objInPacks_loop path_Join open_error verify packs object basedir
                   deferred w)) = (events w ++ evs)%list /\
    Forall (fun e => forall f : File, e <> EvClose f) evs.
Proof.
  induction packs as [|name packs IH]; intros deferred w; cbn [objInPacks_loop].
  - exists []. split; [symmetry; apply app_nil_r | constructor].
  - unfold os_Open. destruct (open_error _) as [tag|].
    { exists []. split; [symmetry; apply app_nil_r | constructor]. }
    cbn [next_fd events]. destruct (open_error _) as [tag|].
    { eexists [_]. split; [reflexivity|]. repeat constructor. discriminate. }
    destruct (VerifyPack verify _ _) as [objs|e].
    + destruct (find _ objs) as [obj|].
      * eexists [_; _; _]. cbn [snd emit events]. rewrite <- !app_assoc.
        split; [reflexivity|]. repeat constructor; discriminate.
      * match goal with |- context [objInPacks_loop _ _ _ _ _ _ ?d ?w'] =>
          destruct (IH d w') as (evs & -> & Hevs) end.
        eexists (_ :: _ :: _ :: evs). cbn [emit events]. rewrite <- !app_assoc.
        split; [reflexivity|]. repeat constructor; try discriminate. exact Hevs.
    + eexists [_; _; _]. cbn [snd emit events]. rewrite <- !app_assoc.
      split; [reflexivity|]. repeat constructor; discriminate.
Qed.

Lemma open_handles_app (evs1 evs2 : list event) :
  forall acc : list nat,
    open_handles (evs1 ++ evs2) acc = open_handles evs2 (open_handles evs1 acc).
Proof.
  induction evs1 as [|[f|pf inf|f] evs1 IH]; intros acc; cbn [open_handles app];
    rewrite ?IH; reflexivity.
Qed.

Lemma run_deferred_events (deferred : list File) :
  forall w : world,
    events (run_deferred deferred w) = (events w ++ map EvClose deferred)%list.
Proof.
  induction deferred as [|f deferred IH]; intros w; cbn [run_deferred map].
  - symmetry. apply app_nil_r.
  - rewrite IH. unfold emit. cbn [events]. rewrite <- app_assoc. reflexivity.
Qed.

(** Closing the handles of [opened], the latest first, removes from the
    open handles every descriptor number of [opened] and nothing else. *)
Lemma open_handles_close_all (opened : list File) :
  forall kept extra : list nat,
    Forall (fun n => Forall (fun f => n <> fd f) opened) kept ->
    Forall (fun n => Exists (fun f => n = fd f) opened) extra ->
    open_handles (map EvClose (rev opened)) (kept ++ extra) = kept.
Proof.
  induction opened as [|f opened IH] using rev_ind; intros kept extra Hkept Hextra.
  - cbn. destruct extra as [|n extra]; [apply app_nil_r|].
    apply Forall_cons in Hextra as [Hn _]. apply Exists_nil in Hn. contradiction.
  - rewrite rev_app_distr. cbn [rev app map open_handles].
    rewrite List.filter_app.
    replace (List.filter (fun n => negb (n =? fd f)%nat) kept) with kept.
    + apply IH.
      * eapply Forall_impl; [exact Hkept|]. cbn. intros n Hn.
        apply Forall_app in Hn as [Hn _]. exact Hn.
      * clear IH Hkept. induction extra as [|n extra IHe]; [constructor|].
        apply Forall_cons in Hextra as [Hn Hextra]. cbn [List.filter].
        destruct (Nat.eqb_spec n (fd f)) as [E|E]; cbn [negb]; [exact (IHe Hextra)|].
        constructor; [|exact (IHe Hextra)].
        apply Exists_app in Hn as [Hn|Hn]; [exact Hn|].
        apply Exists_cons in Hn as [Hn|Hn]; [contradiction|].
        apply Exists_nil in Hn. contradiction.
    + clear IH Hextra. induction kept as [|n kept IHk]; [reflexivity|].
      apply Forall_cons in Hkept as [Hn Hkept]. cbn [List.filter].
      apply Forall_app in Hn as [_ Hn]. apply Forall_cons in Hn as [Hn _].
      destruct (Nat.eqb_spec n (fd f)) as [E|E]; [contradiction|].
      cbn [negb]. rewrite <- (IHk Hkept). reflexivity.
Qed.

(** What the loop leaves behind: the handles it opened, all deferred, their
    descriptor numbers fresh, and events that open them and close nothing. *)
Lemma objInPacks_loop_opens (path_Join : list string -> string)
    (open_error : string -> option string)
    (verify : string -> string -> list packObject + string)
    (object : SHA) (basedir : string) (packs : list SHA) :
  forall (deferred : list File) (w : world),
  exists (opened : list File) (evs : list event),
    snd (fst (objInPacks_loop path_Join open_error verify packs object basedir
                deferred w)) = (rev opened ++ deferred)%list /\
    events (snd (objInPacks_loop path_Join open_error verify packs object basedir
                   deferred w)) = (events w ++ evs)%list /\
    (forall acc : list nat, open_handles evs acc = (acc ++ map fd opened)%list) /\
    Forall (fun f => (next_fd w <= fd f)%nat) opened.
Proof.
  induction packs as [|name packs IH]; intros deferred w; cbn [objInPacks_loop].
  - exists [], []. cbn. rewrite app_nil_r. repeat split; [|constructor].
    intros acc. symmetry. apply app_nil_r.
  - unfold os_Open. destruct (open_error _) as [tag|].
    { exists [], []. cbn. rewrite app_nil_r. repeat split; [|constructor].
      intros acc. symmetry. apply app_nil_r. }
    cbn [next_fd events]. destruct (open_error _) as [tag|].
    { eexists [_], [_]. cbn. repeat split. repeat constructor. }
    assert (forall (pf inf : File) (acc : list nat),
               open_handles [EvOpen pf; EvOpen inf; EvVerify pf inf] acc
               = (acc ++ map fd [pf; inf])%list) as Hthree.
    { intros pf inf acc. cbn. rewrite <- app_assoc. reflexivity. }
    destruct (VerifyPack verify _ _) as [objs|e].
    + destruct (find _ objs) as [obj|].
      * eexists [_; _], [_; _; _]. cbn [fst snd emit events rev app].
        rewrite <- !app_assoc. repeat split; [apply Hthree|].
        repeat constructor; cbn; lia.
      * match goal with |- context [objInPacks_loop _ _ _ _ _ _ ?d ?w'] =>
          destruct (IH d w') as (opened & evs & -> & -> & Hopen & Hfresh) end.
        eexists (_ :: _ :: opened), (_ :: _ :: _ :: evs).
        cbn [emit events rev next_fd] in *. rewrite <- !app_assoc.
        repeat split.
        -- intros acc. cbn [open_handles app map fd]. rewrite Hopen.
           rewrite <- !app_assoc. reflexivity.
        -- repeat constructor; cbn; try lia.
           eapply Forall_impl; [exact Hfresh|]. cbn. intros f Hf. lia.
    + eexists [_; _], [_; _; _]. cbn [fst snd emit events rev app].
      rewrite <- !app_assoc. repeat split; [apply Hthree|].
      repeat constructor; cbn; lia.
Qed.

(** Every handle [objInPacks] opened is closed when it returns, whatever
    the exit: the handles open afterwards are those open before. *)
Lemma objInPacks_releases_at_return (path_Join : list string -> string)
    (open_error : string -> option string)
    (verify : string -> string -> list packObject + string)
    (object : SHA) (basedir : string) (packs : list SHA) (w : world)
    (acc : list nat) :
  Forall (fun n => (n < next_fd w)%nat) (open_handles (events w) acc) ->
  open_handles
    (events (snd (objInPacks path_Join open_error verify packs object basedir w)))
    acc
  = open_handles (events w) acc.
Proof.
  intros Hold. unfold objInPacks.
  destruct (objInPacks_loop_opens path_Join open_error verify object basedir
              packs [] w) as (opened & evs & Hdef & Hev & Hopen & Hfresh).
  destruct (objInPacks_loop _ _ _ _ _ _ _ _) as [[r deferred] w'].
  cbn [fst snd] in *. subst deferred. rewrite app_nil_r.
  rewrite run_deferred_events, Hev, !open_handles_app, Hopen.
  apply open_handles_close_all.
  - eapply Forall_impl; [exact Hold|]. cbn. intros n Hn.
    eapply Forall_impl; [exact Hfresh|]. cbn. intros f Hf. lia.
  - apply Forall_forall. intros n Hn. apply list_elem_of_In in Hn.
    apply in_map_iff in Hn as (f & <- & Hf). apply Exists_exists.
    exists f. split; [apply list_elem_of_In; exact Hf | reflexivity].
Qed.

(** *** The locator on the sample directories *)

Lemma searchPacks_aborts_on_failure_witness :
  fst (sample_searchPacks "zz" "repo" sample_world)
    = (None, Some (Foreign "pack: bad checksum")) /\
  sample_searchPacks "zz" "repo" sample_world
    = objInPacks sample_path_Join sample_open_error sample_verify
        (["a"; "b"] ++ ["c"]) "zz" "repo" sample_world /\
  Foreign "pack: bad checksum" <> not_in_packfiles "zz".
Proof.
  refine (searchPacks_aborts_on_failure sample_path_Join sample_ReadDir
            sample_open_error sample_verify "repo" "zz" ["a"; "b"] ["d"] "c"
            "pack: bad checksum" sample_world _ _ _).
  - vm_compute. reflexivity.
  - repeat constructor.
    + exists sample_objs_a. vm_compute. repeat split.
    + exists sample_objs_b. vm_compute. repeat split.
  - right. right. vm_compute. repeat split.
Defined.

Lemma searchPacks_first_match_witness :
  fst (sample_searchPacks "bb" "good" sample_world) =
    match first_match "bb" (concat [sample_objs_a; sample_objs_b]) with
    | Some obj => (Some obj, None)
    | None => (None, Some (not_in_packfiles "bb"))
    end /\
  (fst (sample_searchPacks "bb" "good" sample_world)
     = (None, Some (not_in_packfiles "bb")) <->
   Forall (fun obj => strings_HasPrefix (Name obj) "bb" = false)
     (concat [sample_objs_a; sample_objs_b])) /\
  (first_match "bb" (concat [sample_objs_a; sample_objs_b]) = None ->
   verified_paths (events (snd (sample_searchPacks "bb" "good" sample_world))) =
     (verified_paths (events sample_world)
      ++ map (fun name => (pack_path sample_path_Join "good" name,
                           idx_path sample_path_Join "good" name)) ["a"; "b"])%list).
Proof.
  refine (searchPacks_first_match sample_path_Join sample_ReadDir
            sample_open_error sample_verify "good" "bb" ["a"; "b"]
            [sample_objs_a; sample_objs_b] sample_world _ _).
  - vm_compute. reflexivity.
  - repeat constructor.
Defined.

Lemma searchPacks_empty_query_witness :
  fst (sample_searchPacks "" "good" sample_world)
    = (Some (decoded "aa11" OBJ_BLOB (Some [Byte.x01]) "" 0), None).
Proof.
  refine (searchPacks_empty_query sample_path_Join sample_ReadDir
            sample_open_error sample_verify "good" "a" ["b"]
            (decoded "aa11" OBJ_BLOB (Some [Byte.x01]) "" 0)
            [decoded "ab22" OBJ_REF_DELTA (Some [Byte.x00]) "aa11" 1]
            sample_world _ _).
  - vm_compute. reflexivity.
  - vm_compute. repeat split.
Defined.

(** C9, the code at the failing input.  The search for a name no archive
    holds, in the directory [repo] whose third archive is rejected, opens
    the handles 3 and 4 of the first archive, then 5 and 6 of the second and
    7 and 8 of the third; no handle is closed before the verifier has
    rejected the third archive.  When the second archive is opened the
    handles of the first are still open; all six are closed, the latest
    first, when the function returns. *)
Theorem objInPacks_closes_at_return_only :
  let evs := events (snd (sample_searchPacks "zz" "repo" sample_world)) in
  evs =
    [EvOpen (mkFile 3 "repo/objects/pack/a.pack");
     EvOpen (mkFile 4 "repo/objects/pack/a.idx");
     EvVerify (mkFile 3 "repo/objects/pack/a.pack") (mkFile 4 "repo/objects/pack/a.idx");
     EvOpen (mkFile 5 "repo/objects/pack/b.pack");
     EvOpen (mkFile 6 "repo/objects/pack/b.idx");
     EvVerify (mkFile 5 "repo/objects/pack/b.pack") (mkFile 6 "repo/objects/pack/b.idx");
     EvOpen (mkFile 7 "repo/objects/pack/c.pack");
     EvOpen (mkFile 8 "repo/objects/pack/c.idx");
     EvVerify (mkFile 7 "repo/objects/pack/c.pack") (mkFile 8 "repo/objects/pack/c.idx");
     EvClose (mkFile 8 "repo/objects/pack/c.idx");
     EvClose (mkFile 7 "repo/objects/pack/c.pack");
     EvClose (mkFile 6 "repo/objects/pack/b.idx");
     EvClose (mkFile 5 "repo/objects/pack/b.pack");
     EvClose (mkFile 4 "repo/objects/pack/a.idx");
     EvClose (mkFile 3 "repo/objects/pack/a.pack")] /\
  open_handles (firstn 4 evs) [] = [3; 4; 5]%nat /\
  open_handles (firstn 9 evs) [] = [3; 4; 5; 6; 7; 8]%nat /\
  open_handles evs [] = [].
Proof. vm_compute. repeat split. Qed.

(** * Further properties *)

(** ** Delta resolution *)

Section ResolverMore.

Variable patchDelta : list Byte.byte -> list Byte.byte -> Reader + error.

Lemma same_decoded_refl (a : packObject) : same_decoded a a.
Proof. repeat split. Qed.

Lemma same_decoded_trans (a b c : packObject) :
  same_decoded a b -> same_decoded b c -> same_decoded a c.
Proof. unfold same_decoded. intuition congruence. Qed.

Lemma same_decoded_heap_refl (h : heap) : same_decoded_heap h h.
Proof. intros q. destruct (h !! q); [apply same_decoded_refl | exact I]. Qed.

(** Overwriting an object with one that has the same decoded fields. *)
Lemma same_decoded_heap_insert (h h1 : heap) (p : ptr) (po1 po2 : packObject) :
  same_decoded_heap h h1 ->
  h1 !! p = Some po1 ->
  same_decoded po1 po2 ->
  same_decoded_heap h (<[p := po2]> h1).
Proof.
  intros Hh Hp Hs q. specialize (Hh q). destruct (decide (p = q)) as [<-|Hne].
  - rewrite lookup_insert_eq. rewrite Hp in Hh.
    destruct (h !! p); [|contradiction]. eapply same_decoded_trans; eassumption.
  - rewrite lookup_insert_ne by exact Hne. exact Hh.
Qed.

Lemma Patch_same_decoded (f : nat) :
  forall (h h1 : heap) (p : ptr) (dict : dictionary) (r : outcome),
    Patch patchDelta f h p dict = (r, h1) -> same_decoded_heap h h1.
Proof.
  induction f as [|f IH]; intros h h1 p dict r HP; cbn [Patch] in HP.
  - injection HP as <- <-. apply same_decoded_heap_refl.
  - destruct (h !! p) as [po|] eqn:Hp;
      [|injection HP as <- <-; apply same_decoded_heap_refl].
    destruct (negb _); [injection HP as <- <-; apply same_decoded_heap_refl|].
    destruct (_ <? _).
    { destruct (Data po); injection HP as <- <-;
        [|apply same_decoded_heap_refl].
      eapply same_decoded_heap_insert;
        [apply same_decoded_heap_refl | exact Hp | repeat split]. }
    destruct (_ >=? _); [|injection HP as <- <-; apply same_decoded_heap_refl].
    destruct (dict !! _) as [b|];
      [|injection HP as <- <-; apply same_decoded_heap_refl].
    destruct (Patch patchDelta f h b dict) as [r0 h0] eqn:Hb.
    pose proof (IH _ _ _ _ _ Hb) as H0.
    destruct r0; try (injection HP as <- <-; exact H0).
    destruct (h0 !! b) as [bo|]; [|injection HP as <- <-; exact H0].
    destruct (h0 !! p) as [po1|] eqn:Hp1; [|injection HP as <- <-; exact H0].
    destruct (patchDelta _ _) as [patched|e]; [|injection HP as <- <-; exact H0].
    cbn [ioutil_ReadAll] in HP.
    assert (same_decoded_heap h (<[p := set_PatchedData (Some (r_data patched)) po1]> h0))
      as H1.
    { eapply same_decoded_heap_insert; [exact H0 | exact Hp1 | repeat split]. }
    destruct (r_err _); [injection HP as <- <-; exact H1|].
    destruct (_ !! b) as [bo2|]; [|injection HP as <- <-; exact H1].
    match type of HP with context [<[p := ?x]> (<[p := ?y]> h0)] =>
      assert (same_decoded_heap h (<[p := x]> (<[p := y]> h0))) as H2
        by (eapply same_decoded_heap_insert;
              [exact H1 | apply lookup_insert_eq | repeat split])
    end.
    destruct (_ !! b) as [bo3|]; [|injection HP as <- <-; exact H2].
    injection HP as <- <-.
    eapply same_decoded_heap_insert; [exact H2 | apply lookup_insert_eq | repeat split].
Qed.

(** X1.  Whatever its outcome, a call of [Patch] frees no object, creates
    none, and leaves in every object of the heap the fields decoding filled
    in: it assigns [PatchedData], [BaseObjectType] and [Depth] only. *)
Theorem Patch_assigns_resolution_fields_only (f : nat) (h : heap) (p : ptr)
    (dict : dictionary) :
  same_decoded_heap h (snd (Patch patchDelta f h p dict)).
Proof.
  destruct (Patch patchDelta f h p dict) as [r h1] eqn:HP.
  exact (Patch_same_decoded f h h1 p dict r HP).
Qed.

(** The delta branch of [Patch] for a descriptor not yet resolved, whatever
    the call on the base gives. *)
Lemma Patch_delta_unfold (f : nat) (h : heap) (p b : ptr) (dict : dictionary)
    (po : packObject) :
  h !! p = Some po ->
  len (PatchedData po) = 0 ->
  OBJ_OFS_DELTA <= _type po ->
  dict !! BaseObjectName po = Some b ->
  Patch patchDelta (S f) h p dict =
    match Patch patchDelta f h b dict with
    | (Ok, h1) =>
      match h1 !! b, h1 !! p with
      | Some bo, Some po1 =>
        match patchDelta (contents (PatchedData bo)) (contents (Data po1)) with
        | inr e => (Err e, h1)
        | inl patched =>
          match r_err patched with
          | Some e => (Err e, <[p := set_PatchedData (Some (r_data patched)) po1]> h1)
          | None =>
            (Ok, <[p := set_Depth (wrap_int (Depth po1 + Depth bo))
                          (set_BaseObjectType (BaseObjectType bo)
                             (set_PatchedData (Some (r_data patched)) po1))]> h1)
          end
        end
      | _, _ => (Panic, h1)
      end
    | (r, h1) => (r, h1)
    end.
Proof.
  intros Hp Hlen Ht Hd.
  destruct (Patch patchDelta f h b dict) as [r0 h0] eqn:Hb.
  destruct r0.
  - destruct (h0 !! b) as [bo|] eqn:Hbo.
    + destruct (h0 !! p) as [po1|] eqn:Hp1.
      * apply (Patch_delta_step patchDelta f h h0 p b dict po po1 bo);
          assumption.
      * destruct (delta_kind_tests _ Ht) as [Hlt Hge]. cbn [Patch].
        rewrite Hp, (len_zero_test _ Hlen), Hlt, Hge, Hd, Hb, Hbo, Hp1.
        reflexivity.
    + destruct (delta_kind_tests _ Ht) as [Hlt Hge]. cbn [Patch].
      rewrite Hp, (len_zero_test _ Hlen), Hlt, Hge, Hd, Hb, Hbo.
      destruct (h0 !! p); reflexivity.
  - destruct (delta_kind_tests _ Ht) as [Hlt Hge]. cbn [Patch].
    rewrite Hp, (len_zero_test _ Hlen), Hlt, Hge, Hd, Hb. reflexivity.
  - destruct (delta_kind_tests _ Ht) as [Hlt Hge]. cbn [Patch].
    rewrite Hp, (len_zero_test _ Hlen), Hlt, Hge, Hd, Hb. reflexivity.
  - destruct (delta_kind_tests _ Ht) as [Hlt Hge]. cbn [Patch].
    rewrite Hp, (len_zero_test _ Hlen), Hlt, Hge, Hd, Hb. reflexivity.
Qed.

(** The full-content branch of [Patch] for a descriptor not yet resolved. *)
Lemma Patch_full_unfold (f : nat) (h : heap) (p : ptr) (dict : dictionary)
    (po : packObject) :
  h !! p = Some po ->
  len (PatchedData po) = 0 ->
  _type po < OBJ_OFS_DELTA ->
  Patch patchDelta (S f) h p dict =
    match Data po with
    | None => (Err (Errorf "base object data is nil"), h)
    | Some _ =>
      (Ok, <[p := set_BaseObjectType (_type po) (set_PatchedData (Data po) po)]> h)
    end.
Proof.
  intros Hp Hlen Ht. cbn [Patch]. rewrite Hp, (len_zero_test _ Hlen).
  rewrite (proj2 (Z.ltb_lt _ _) Ht). reflexivity.
Qed.

(** The dictionary does not hold the base of a descriptor not yet
    resolved. *)
Lemma Patch_unknown_base_eq (f : nat) (h : heap) (p : ptr) (dict : dictionary)
    (po : packObject) :
  h !! p = Some po ->
  len (PatchedData po) = 0 ->
  OBJ_OFS_DELTA <= _type po ->
  dict !! BaseObjectName po = None ->
  Patch patchDelta (S f) h p dict =
    (Err (Errorf (String.append "base object not in dictionary: "
                    (BaseObjectName po))), h).
Proof.
  intros Hp Hlen Ht Hd. destruct (delta_kind_tests _ Ht) as [Hlt Hge].
  cbn [Patch]. rewrite Hp, (len_zero_test _ Hlen), Hlt, Hge, Hd. reflexivity.
Qed.

Lemma len_nil_slice (b : bytes) : b = None -> len b = 0.
Proof. intros ->. reflexivity. Qed.

Lemma len_nonzero_nonnil (b : bytes) : len b <> 0 -> b <> None.
Proof. intros Hb ->. apply Hb. reflexivity. Qed.

Lemma Patch_Ok_nonnil (f : nat) (h h1 : heap) (p : ptr) (dict : dictionary) :
  Patch patchDelta f h p dict = (Ok, h1) ->
  exists po1 : packObject, h1 !! p = Some po1 /\ PatchedData po1 <> None.
Proof.
  intros HP. destruct f as [|f]; [discriminate|].
  destruct (h !! p) as [po|] eqn:Hp; [|cbn [Patch] in HP; rewrite Hp in HP; discriminate].
  destruct (Z.eq_dec (len (PatchedData po)) 0) as [Hlen|Hlen].
  - destruct (Z_lt_le_dec (_type po) OBJ_OFS_DELTA) as [Ht|Ht].
    + rewrite (Patch_full_unfold f h p dict po Hp Hlen Ht) in HP.
      destruct (Data po) as [d|] eqn:Hd; [|discriminate].
      injection HP as <-. eexists. split; [apply lookup_insert_eq|].
      cbn. discriminate.
    + destruct (dict !! BaseObjectName po) as [b|] eqn:Hd.
      * rewrite (Patch_delta_unfold f h p b dict po Hp Hlen Ht Hd) in HP.
        destruct (Patch patchDelta f h b dict) as [r0 h0].
        destruct r0; try discriminate.
        destruct (h0 !! b); [|discriminate].
        destruct (h0 !! p); [|discriminate].
        destruct (patchDelta _ _) as [patched|]; [|discriminate].
        destruct (r_err patched); [discriminate|].
        injection HP as <-. eexists. split; [apply lookup_insert_eq|].
        cbn. discriminate.
      * rewrite (Patch_unknown_base_eq f h p dict po Hp Hlen Ht Hd) in HP.
        discriminate.
  - rewrite (Patch_resolved patchDelta f h p dict po Hp Hlen) in HP.
    injection HP as <-. exists po. split; [exact Hp|].
    apply len_nonzero_nonnil. exact Hlen.
Qed.

(** X2.  When [Patch] returns nil its receiver has a non-nil [PatchedData],
    as the comment before the call of [patchDelta] takes for granted of the
    base. *)
Theorem Patch_success_sets_PatchedData (f : nat) (h h1 : heap) (p : ptr)
    (dict : dictionary) :
  Patch patchDelta f h p dict = (Ok, h1) ->
  exists po1 : packObject, h1 !! p = Some po1 /\ PatchedData po1 <> None.
Proof. apply Patch_Ok_nonnil. Qed.

Section FrameAny.

(** An unresolved delta [p] whose base is [b]. *)
Variables (h : heap) (dict : dictionary) (p b : ptr) (po : packObject).
Hypothesis Hp : h !! p = Some po.
Hypothesis Hlen : len (PatchedData po) = 0.
Hypothesis Hkind : OBJ_OFS_DELTA <= _type po.
Hypothesis Hbase : dict !! BaseObjectName po = Some b.

(** A call that came to an end either left [p] alone or went through [p],
    and then through a call on [b] that came to an end with less fuel. *)
Lemma Patch_descent_any (f : nat) :
  forall (q : ptr) (r : outcome) (h1 : heap),
    Patch patchDelta f h q dict = (r, h1) ->
    r <> OutOfFuel ->
    h1 !! p = Some po \/
    exists (f' : nat) (r' : outcome) (h' : heap),
      (f' < f)%nat /\ r' <> OutOfFuel /\ Patch patchDelta f' h b dict = (r', h').
Proof.
  induction f as [|f IH]; intros q r h1 HP Hr.
  { cbn [Patch] in HP. injection HP as <- <-. contradiction. }
  destruct (decide (q = p)) as [->|Hne].
  - right. rewrite (Patch_delta_unfold f h p b dict po Hp Hlen Hkind Hbase) in HP.
    destruct (Patch patchDelta f h b dict) as [r0 h0] eqn:Hb.
    exists f, r0, h0. split; [lia|]. split; [|exact Hb].
    intros ->. cbv beta iota in HP. injection HP as <- <-. contradiction.
  - destruct (h !! q) as [qo|] eqn:Hq;
      [|cbn [Patch] in HP; rewrite Hq in HP; injection HP as <- <-; left; exact Hp].
    destruct (Z.eq_dec (len (PatchedData qo)) 0) as [Hqlen|Hqlen];
      [|rewrite (Patch_resolved patchDelta f h q dict qo Hq Hqlen) in HP;
        injection HP as <- <-; left; exact Hp].
    destruct (Z_lt_le_dec (_type qo) OBJ_OFS_DELTA) as [Hqt|Hqt].
    { rewrite (Patch_full_unfold f h q dict qo Hq Hqlen Hqt) in HP. left.
      destruct (Data qo); injection HP as <- <-; [|exact Hp].
      rewrite lookup_insert_ne by exact Hne. exact Hp. }
    destruct (dict !! BaseObjectName qo) as [bq|] eqn:Hqd;
      [|rewrite (Patch_unknown_base_eq f h q dict qo Hq Hqlen Hqt Hqd) in HP;
        injection HP as <- <-; left; exact Hp].
    rewrite (Patch_delta_unfold f h q bq dict qo Hq Hqlen Hqt Hqd) in HP.
    destruct (Patch patchDelta f h bq dict) as [r0 h0] eqn:Hb.
    assert (r0 <> OutOfFuel) as Hr0.
    { intros ->. cbv beta iota in HP. injection HP as <- <-. contradiction. }
    destruct (IH _ _ _ Hb Hr0) as [Hsame|(f' & r' & h' & Hlt' & Hr' & Hb')];
      [|right; exists f', r', h'; split; [lia | split; assumption]].
    left. destruct r0; try (injection HP as <- <-; exact Hsame).
    destruct (h0 !! bq); [|injection HP as <- <-; exact Hsame].
    destruct (h0 !! q); [|injection HP as <- <-; exact Hsame].
    destruct (patchDelta _ _) as [patched|]; [|injection HP as <- <-; exact Hsame].
    destruct (r_err patched); injection HP as <- <-;
      rewrite lookup_insert_ne by exact Hne; exact Hsame.
Qed.

Lemma Patch_base_frame_any (f : nat) :
  forall (r : outcome) (h1 : heap),
    Patch patchDelta f h b dict = (r, h1) -> r <> OutOfFuel -> h1 !! p = Some po.
Proof.
  induction f as [f IH] using lt_wf_ind. intros r h1 HP Hr.
  destruct (Patch_descent_any f b r h1 HP Hr)
    as [Hsame|(f' & r' & h' & Hlt' & Hr' & Hb')]; [exact Hsame|].
  pose proof (Patch_fuel_mono patchDelta f' _ _ _ _ _ Hb' Hr' f ltac:(lia)) as HP'.
  rewrite HP in HP'. injection HP' as -> ->. exact (IH f' Hlt' r' h' Hb' Hr').
Qed.

End FrameAny.

(** X3.  Patching the base of a delta not yet resolved never writes to the
    delta, whether the call on the base ends with nil, with an error or
    with a panic: a chain of bases that led back to the delta would not
    end. *)
Theorem Patch_base_leaves_delta (f : nat) (h h1 : heap) (p b : ptr)
    (dict : dictionary) (po : packObject) (r : outcome) :
  h !! p = Some po ->
  len (PatchedData po) = 0 ->
  OBJ_OFS_DELTA <= _type po ->
  dict !! BaseObjectName po = Some b ->
  Patch patchDelta f h b dict = (r, h1) ->
  r <> OutOfFuel ->
  h1 !! p = Some po.
Proof.
  intros Hp Hlen Ht Hd HP Hr.
  exact (Patch_base_frame_any h dict p b po Hp Hlen Ht Hd f r h1 HP Hr).
Qed.

(** X4.  When the call of [Patch] on the base returns an error, the call on
    the delta returns that same error and the delta is as it was before:
    nothing is assigned to it. *)
Theorem Patch_base_error_propagates (f : nat) (h h1 : heap) (p b : ptr)
    (dict : dictionary) (po : packObject) (e : error) :
  h !! p = Some po ->
  len (PatchedData po) = 0 ->
  OBJ_OFS_DELTA <= _type po ->
  dict !! BaseObjectName po = Some b ->
  Patch patchDelta f h b dict = (Err e, h1) ->
  Patch patchDelta (S f) h p dict = (Err e, h1) /\ h1 !! p = Some po.
Proof.
  intros Hp Hlen Ht Hd HP. split.
  - rewrite (Patch_delta_unfold f h p b dict po Hp Hlen Ht Hd), HP. reflexivity.
  - apply (Patch_base_frame_any h dict p b po Hp Hlen Ht Hd f (Err e) h1 HP).
    discriminate.
Qed.

(** X5.  A set of descriptors not yet resolved that are all deltas with
    their base in the set (a cycle of bases, for one) is never resolved:
    whatever the depth of recursion allowed, the call of [Patch] on any of
    them is still recursing and has written nothing. *)
Theorem Patch_cycle_never_returns (h : heap) (dict : dictionary)
    (cyclic : ptr -> Prop) :
  (forall q : ptr, cyclic q ->
     exists (qo : packObject) (b : ptr),
       h !! q = Some qo /\ len (PatchedData qo) = 0 /\
       OBJ_OFS_DELTA <= _type qo /\
       dict !! BaseObjectName qo = Some b /\ cyclic b) ->
  forall (f : nat) (q : ptr),
    cyclic q -> Patch patchDelta f h q dict = (OutOfFuel, h).
Proof.
  intros Hclosed f. induction f as [|f IH]; intros q Hq; [reflexivity|].
  destruct (Hclosed q Hq) as (qo & b & Hqo & Hlen & Ht & Hd & Hb).
  rewrite (Patch_delta_unfold f h q b dict qo Hqo Hlen Ht Hd), (IH b Hb).
  reflexivity.
Qed.

Lemma chain_head (h : heap) (dict : dictionary) (p : ptr) (l : list ptr) :
  chain h dict p l -> exists l' : list ptr, l = p :: l'.
Proof. intros [? ? ? ?|? ? ? ? ? ? ? ?]; eauto. Qed.

Lemma chain_last_hop (h : heap) (dict : dictionary) (p b : ptr) (l : list ptr) :
  chain h dict b l -> last (p :: l) = last l.
Proof. intros Hc. destruct (chain_head h dict b l Hc) as [l' ->]. reflexivity. Qed.

Lemma Patch_root_kind (h : heap) (dict : dictionary) (p : ptr) (l : list ptr) :
  chain h dict p l ->
  fresh h ->
  forall (r : ptr) (ro : packObject),
    last l = Some r ->
    h !! r = Some ro ->
    forall (f : nat) (h1 : heap),
      Patch patchDelta f h p dict = (Ok, h1) ->
      exists po1 : packObject,
        h1 !! p = Some po1 /\
        BaseObjectType po1 = _type ro /\
        PatchedType po1 = _type ro.
Proof.
  intros Hc Hfresh r ro.
  induction Hc as [p po Hp Ht|p b po l Hp Ht Hd Hc IH]; intros Hlast Hr f h1 HP;
    (destruct f as [|f]; [discriminate|]);
    pose proof (len_nil_slice _ (Hfresh p po Hp)) as Hlen.
  - cbn in Hlast. injection Hlast as <-. rewrite Hp in Hr. injection Hr as <-.
    rewrite (Patch_full_unfold f h p dict po Hp Hlen Ht) in HP.
    destruct (Data po) as [d|] eqn:Hdata; [|discriminate]. injection HP as <-.
    eexists. split; [apply lookup_insert_eq|]. split; [reflexivity|].
    unfold PatchedType. cbn [_type set_BaseObjectType set_PatchedData].
    rewrite (proj2 (Z.ltb_lt _ _) Ht). reflexivity.
  - rewrite (chain_last_hop h dict p b l Hc) in Hlast.
    rewrite (Patch_delta_unfold f h p b dict po Hp Hlen Ht Hd) in HP.
    destruct (Patch patchDelta f h b dict) as [r0 h0] eqn:Hb.
    destruct r0; try discriminate.
    destruct (IH Hlast Hr f h0 Hb) as (bo1 & Hbo1 & Hkind & _).
    rewrite Hbo1 in HP.
    rewrite (Patch_base_frame patchDelta h dict p b po Hp Hlen Ht Hd f h0 Hb) in HP.
    destruct (patchDelta _ _) as [patched|]; [|discriminate].
    destruct (r_err patched); [discriminate|]. injection HP as <-.
    eexists. split; [apply lookup_insert_eq|]. split; [exact Hkind|].
    unfold PatchedType. cbn [_type BaseObjectType set_Depth set_BaseObjectType set_PatchedData].
    rewrite (proj1 (delta_kind_tests _ Ht)). exact Hkind.
Qed.

(** X6.  In a heap as decoding leaves it, a descriptor that [Patch]
    resolves gets as [BaseObjectType], and as [PatchedType], the kind of
    the full-content descriptor at the end of its chain of bases, however
    many deltas lie between them. *)
Theorem Patch_inherits_root_kind (f : nat) (h h1 : heap) (dict : dictionary)
    (p r : ptr) (l : list ptr) (ro : packObject) :
  fresh h ->
  chain h dict p l ->
  last l = Some r ->
  h !! r = Some ro ->
  Patch patchDelta f h p dict = (Ok, h1) ->
  exists po1 : packObject,
    h1 !! p = Some po1 /\
    BaseObjectType po1 = _type ro /\
    PatchedType po1 = _type ro.
Proof.
  intros Hfresh Hc Hlast Hr HP.
  exact (Patch_root_kind h dict p l Hc Hfresh r ro Hlast Hr f h1 HP).
Qed.

Lemma Patch_chain_payload (h : heap) (dict : dictionary) (p : ptr) (l : list ptr) :
  chain h dict p l ->
  forall out : list Byte.byte,
    chain_payload patchDelta h l = Some out ->
    exists (h1 : heap) (po1 : packObject),
      Patch patchDelta (length l) h p dict = (Ok, h1) /\
      h1 !! p = Some po1 /\
      contents (PatchedData po1) = out.
Proof.
  induction 1 as [p po Hp Ht|p b po l Hp Ht Hd Hc IH]; intros out Hout;
    cbn [chain_payload length] in *; rewrite Hp in Hout;
    (destruct (Z.eq_dec (len (PatchedData po)) 0) as [Hlen|Hlen];
     [rewrite (len_zero_test _ Hlen) in Hout
     |rewrite (len_nonzero_test _ Hlen) in Hout; injection Hout as <-;
      exists h, po;
      rewrite (Patch_resolved patchDelta _ h p dict po Hp Hlen);
      repeat split; exact Hp]).
  - rewrite (Patch_full_unfold 0 h p dict po Hp Hlen Ht), Hout.
    eexists _, _. split; [reflexivity|]. split; [apply lookup_insert_eq|].
    reflexivity.
  - destruct (chain_head h dict b l Hc) as [l' ->].
    destruct (chain_payload patchDelta h (b :: l')) as [base|] eqn:Hbase;
      [|discriminate].
    destruct (IH base eq_refl) as (h0 & bo1 & Hb & Hbo1 & Hpayload).
    rewrite (Patch_delta_unfold (length (b :: l')) h p b dict po Hp Hlen Ht Hd).
    rewrite Hb, Hbo1.
    rewrite (Patch_base_frame patchDelta h dict p b po Hp Hlen Ht Hd _ h0 Hb).
    rewrite Hpayload.
    destruct (patchDelta base (contents (Data po))) as [patched|]; [|discriminate].
    destruct (r_err patched); [discriminate|]. injection Hout as <-.
    eexists _, _. split; [reflexivity|]. split; [apply lookup_insert_eq|].
    reflexivity.
Qed.

(** X7.  A descriptor whose chain of bases has [n] descriptors, the last a
    full-content one, is resolved by [Patch] within [n] nested calls
    whenever the chain has a payload: the root has a non-nil [Data] and the
    delta decoder accepts each delta of the chain against the payload its
    base resolves to, with a patched stream that reads without error.  The
    [PatchedData] the call leaves in its receiver is that payload. *)
Theorem Patch_resolves_chain (f : nat) (h : heap) (dict : dictionary) (p : ptr)
    (l : list ptr) (out : list Byte.byte) :
  chain h dict p l ->
  chain_payload patchDelta h l = Some out ->
  (length l <= f)%nat ->
  exists (h1 : heap) (po1 : packObject),
    Patch patchDelta f h p dict = (Ok, h1) /\
    h1 !! p = Some po1 /\
    contents (PatchedData po1) = out.
Proof.
  intros Hc Hout Hf.
  destruct (Patch_chain_payload h dict p l Hc out Hout) as (h1 & po1 & HP & Hpo1 & Hpd).
  exists h1, po1.
  rewrite (Patch_fuel_mono patchDelta _ _ _ _ _ _ HP ltac:(discriminate) f Hf).
  repeat split; assumption.
Qed.

(** X8.  When the delta decoder succeeds but reading its patched stream
    fails after some bytes, [Patch] returns the read error with those bytes
    already assigned to [PatchedData]; a later call then finds
    [PatchedData] non-empty and returns nil at once, whatever the
    dictionary, with the partial bytes kept and [BaseObjectType] never
    assigned. *)
Theorem Patch_read_error_then_nil (f : nat) (h : heap) (p b : ptr)
    (dict : dictionary) (po bo : packObject) (patched : Reader) (e : error) :
  h !! p = Some po ->
  len (PatchedData po) = 0 ->
  OBJ_OFS_DELTA <= _type po ->
  dict !! BaseObjectName po = Some b ->
  h !! b = Some bo ->
  len (PatchedData bo) <> 0 ->
  patchDelta (contents (PatchedData bo)) (contents (Data po)) = inl patched ->
  r_err patched = Some e ->
  r_data patched <> [] ->
  let po1 := set_PatchedData (Some (r_data patched)) po in
  Patch patchDelta (S (S f)) h p dict = (Err e, <[p := po1]> h) /\
  BaseObjectType po1 = BaseObjectType po /\
  forall (g : nat) (dict' : dictionary),
    Patch patchDelta (S g) (<[p := po1]> h) p dict' = (Ok, <[p := po1]> h).
Proof.
  intros Hp Hlen Ht Hd Hbo Hres Hpd Hre Hdata po1. split; [|split].
  - apply (Patch_read_error_keeps_bytes patchDelta f h p b dict po bo patched e);
      assumption.
  - reflexivity.
  - intros g dict'.
    apply (Patch_resolved patchDelta g _ p dict' po1 (lookup_insert_eq _ _ _)).
    subst po1. cbn [PatchedData set_PatchedData len].
    destruct (r_data patched); [contradiction | cbn [length]; lia].
Qed.

Lemma Patch_off_chain (h : heap) (dict : dictionary) (p : ptr) (l : list ptr)
    (q : ptr) :
  chain h dict p l ->
  q ∉ l ->
  forall (f : nat) (r : outcome) (h1 : heap),
    Patch patchDelta f h p dict = (r, h1) -> h1 !! q = h !! q.
Proof.
  induction 1 as [p po Hp Ht|p b po l Hp Ht Hd Hc IH]; intros Hq f r h1 HP;
    (destruct f as [|f]; [cbn [Patch] in HP; injection HP as <- <-; reflexivity|]);
    (destruct (Z.eq_dec (len (PatchedData po)) 0) as [Hlen|Hlen];
     [|rewrite (Patch_resolved patchDelta f h p dict po Hp Hlen) in HP;
       injection HP as <- <-; reflexivity]);
    apply not_elem_of_cons in Hq as [Hne Hq].
  - rewrite (Patch_full_unfold f h p dict po Hp Hlen Ht) in HP.
    destruct (Data po); injection HP as <- <-; [|reflexivity].
    apply lookup_insert_ne. congruence.
  - rewrite (Patch_delta_unfold f h p b dict po Hp Hlen Ht Hd) in HP.
    destruct (Patch patchDelta f h b dict) as [r0 h0] eqn:Hb.
    pose proof (IH Hq f r0 h0 Hb) as H0.
    destruct r0; try (injection HP as <- <-; exact H0).
    destruct (h0 !! b); [|injection HP as <- <-; exact H0].
    destruct (h0 !! p); [|injection HP as <- <-; exact H0].
    destruct (patchDelta _ _) as [patched|]; [|injection HP as <- <-; exact H0].
    destruct (r_err patched); injection HP as <- <-;
      (rewrite lookup_insert_ne by congruence); exact H0.
Qed.

(** X9.  A call of [Patch] writes only to the receiver and to the
    descriptors on its chain of bases: every other object of the heap is
    the same after the call, whatever its outcome. *)
Theorem Patch_writes_on_chain_only (f : nat) (h : heap) (dict : dictionary)
    (p q : ptr) (l : list ptr) :
  chain h dict p l ->
  q ∉ l ->
  snd (Patch patchDelta f h p dict) !! q = h !! q.
Proof.
  intros Hc Hq. destruct (Patch patchDelta f h p dict) as [r h1] eqn:HP.
  exact (Patch_off_chain h dict p l q Hc Hq f r h1 HP).
Qed.

Lemma Patch_chain_nonnil (h : heap) (dict : dictionary) (p : ptr) (l : list ptr) :
  chain h dict p l ->
  fresh h ->
  forall (f : nat) (h1 : heap),
    Patch patchDelta f h p dict = (Ok, h1) ->
    forall q : ptr, q ∈ l ->
      exists qo1 : packObject, h1 !! q = Some qo1 /\ PatchedData qo1 <> None.
Proof.
  intros Hc Hfresh.
  induction Hc as [p po Hp Ht|p b po l Hp Ht Hd Hc IH]; intros f h1 HP q Hq;
    (destruct (decide (q = p)) as [->|Hne];
     [exact (Patch_Ok_nonnil f h h1 p dict HP)|]);
    apply elem_of_cons in Hq as [->|Hq]; try contradiction.
  - apply elem_of_nil in Hq. contradiction.
  - destruct f as [|f]; [discriminate|].
    pose proof (len_nil_slice _ (Hfresh p po Hp)) as Hlen.
    rewrite (Patch_delta_unfold f h p b dict po Hp Hlen Ht Hd) in HP.
    destruct (Patch patchDelta f h b dict) as [r0 h0] eqn:Hb.
    destruct r0; try discriminate.
    destruct (IH f h0 Hb q Hq) as (qo1 & Hqo1 & Hnn).
    destruct (h0 !! b); [|discriminate].
    destruct (h0 !! p); [|discriminate].
    destruct (patchDelta _ _) as [patched|]; [|discriminate].
    destruct (r_err patched); [discriminate|]. injection HP as <-.
    exists qo1. rewrite lookup_insert_ne by congruence. split; assumption.
Qed.

(** X10.  In a heap as decoding leaves it, a successful call of [Patch]
    resolves the whole chain of bases of its receiver: afterwards every
    descriptor of the chain has a non-nil [PatchedData]. *)
Theorem Patch_resolves_whole_chain (f : nat) (h h1 : heap) (dict : dictionary)
    (p q : ptr) (l : list ptr) :
  fresh h ->
  chain h dict p l ->
  Patch patchDelta f h p dict = (Ok, h1) ->
  q ∈ l ->
  exists qo1 : packObject, h1 !! q = Some qo1 /\ PatchedData qo1 <> None.
Proof.
  intros Hfresh Hc HP Hq.
  exact (Patch_chain_nonnil h dict p l Hc Hfresh f h1 HP q Hq).
Qed.

End ResolverMore.

(** *** The resolver on the sample heaps *)

Lemma sample_heap_fresh : fresh sample_heap.
Proof.
  intros q qo Hq. unfold sample_heap in Hq.
  repeat (apply lookup_insert_Some in Hq as [[_ <-]|[_ Hq]]; [reflexivity|]).
  rewrite lookup_empty in Hq. discriminate.
Qed.

Lemma sample_chain_d : chain sample_heap sample_dict 2%nat [2; 1; 0]%nat.
Proof.
  eapply chain_hop; [reflexivity | vm_compute; discriminate | reflexivity|].
  eapply chain_hop; [reflexivity | vm_compute; discriminate | reflexivity|].
  eapply chain_root; [reflexivity | reflexivity].
Qed.

Lemma sample_chain_b : chain sample_heap sample_dict 1%nat [1; 0]%nat.
Proof.
  eapply chain_hop; [reflexivity | vm_compute; discriminate | reflexivity|].
  eapply chain_root; [reflexivity | reflexivity].
Qed.

Lemma Patch_success_sets_PatchedData_witness :
  exists po1 : packObject,
    snd (Patch sample_patchDelta 3 sample_heap 2%nat sample_dict) !! 2%nat = Some po1 /\
    PatchedData po1 <> None.
Proof.
  apply (Patch_success_sets_PatchedData sample_patchDelta 3 sample_heap
           (snd (Patch sample_patchDelta 3 sample_heap 2%nat sample_dict))
           2%nat sample_dict).
  vm_compute. reflexivity.
Defined.

Lemma Patch_base_leaves_delta_witness :
  snd (Patch sample_patchDelta 1 sample_heap 0%nat sample_dict) !! 1%nat
    = Some (decoded "b" OBJ_REF_DELTA (Some [Byte.x00]) "a" 1).
Proof.
  apply (Patch_base_leaves_delta sample_patchDelta 1 sample_heap
           (snd (Patch sample_patchDelta 1 sample_heap 0%nat sample_dict))
           1%nat 0%nat sample_dict
           (decoded "b" OBJ_REF_DELTA (Some [Byte.x00]) "a" 1) Ok);
    vm_compute; solve [reflexivity | discriminate].
Defined.

Lemma Patch_base_error_propagates_witness :
  Patch sample_patchDelta 2 nodata_heap 1%nat sample_dict
    = (Err (Errorf "base object data is nil"), nodata_heap) /\
  nodata_heap !! 1%nat = Some (decoded "b" OBJ_REF_DELTA (Some [Byte.x00]) "a" 1).
Proof.
  apply (Patch_base_error_propagates sample_patchDelta 1 nodata_heap nodata_heap
           1%nat 0%nat sample_dict
           (decoded "b" OBJ_REF_DELTA (Some [Byte.x00]) "a" 1)
           (Errorf "base object data is nil"));
    vm_compute; solve [reflexivity | discriminate].
Defined.

Lemma Patch_cycle_never_returns_witness :
  Patch sample_patchDelta 1000 cyclic_heap 0%nat cyclic_dict
    = (OutOfFuel, cyclic_heap).
Proof.
  apply (Patch_cycle_never_returns sample_patchDelta cyclic_heap cyclic_dict
           (fun q => q = 0%nat \/ q = 1%nat)).
  - intros q [->| ->].
    + exists (decoded "x" OBJ_REF_DELTA (Some [Byte.x00]) "y" 1), 1%nat.
      repeat split; [vm_compute; discriminate | right; reflexivity].
    + exists (decoded "y" OBJ_REF_DELTA (Some [Byte.x00]) "x" 1), 0%nat.
      repeat split; [vm_compute; discriminate | left; reflexivity].
  - left. reflexivity.
Defined.

Lemma Patch_inherits_root_kind_witness :
  exists po1 : packObject,
    snd (Patch sample_patchDelta 3 sample_heap 2%nat sample_dict) !! 2%nat = Some po1 /\
    BaseObjectType po1 = OBJ_BLOB /\
    PatchedType po1 = OBJ_BLOB.
Proof.
  apply (Patch_inherits_root_kind sample_patchDelta 3 sample_heap
           (snd (Patch sample_patchDelta 3 sample_heap 2%nat sample_dict))
           sample_dict 2%nat 0%nat [2; 1; 0]%nat
           (decoded "a" OBJ_BLOB (Some [Byte.x01]) "" 0)
           sample_heap_fresh sample_chain_d);
    vm_compute; reflexivity.
Defined.

Lemma Patch_resolves_chain_witness :
  exists (h1 : heap) (po1 : packObject),
    Patch sample_patchDelta 3 sample_heap 2%nat sample_dict = (Ok, h1) /\
    h1 !! 2%nat = Some po1 /\
    contents (PatchedData po1) = [].
Proof.
  apply (Patch_resolves_chain sample_patchDelta 3 sample_heap sample_dict 2%nat
           [2; 1; 0]%nat [] sample_chain_d).
  - vm_compute. reflexivity.
  - cbn. lia.
Defined.

Lemma Patch_read_error_then_nil_witness :
  let po1 := set_PatchedData (Some [Byte.x01])
               (decoded "b" OBJ_REF_DELTA (Some [Byte.x00]) "a" 1) in
  Patch truncating_patchDelta 2 sample_heap_a 1%nat sample_dict
    = (Err (Foreign "unexpected EOF"), <[1%nat := po1]> sample_heap_a) /\
  BaseObjectType po1 = 0 /\
  forall (g : nat) (dict' : dictionary),
    Patch truncating_patchDelta (S g) (<[1%nat := po1]> sample_heap_a) 1%nat dict'
      = (Ok, <[1%nat := po1]> sample_heap_a).
Proof.
  apply (Patch_read_error_then_nil truncating_patchDelta 0 sample_heap_a 1%nat 0%nat
           sample_dict
           (decoded "b" OBJ_REF_DELTA (Some [Byte.x00]) "a" 1)
           (set_BaseObjectType OBJ_BLOB
              (set_PatchedData (Some [Byte.x01])
                 (decoded "a" OBJ_BLOB (Some [Byte.x01]) "" 0)))
           (mkReader [Byte.x01] (Some (Foreign "unexpected EOF")))
           (Foreign "unexpected EOF"));
    vm_compute; solve [reflexivity | discriminate].
Defined.

Lemma Patch_writes_on_chain_only_witness :
  snd (Patch sample_patchDelta 3 sample_heap 1%nat sample_dict) !! 2%nat
    = sample_heap !! 2%nat.
Proof.
  apply (Patch_writes_on_chain_only sample_patchDelta 3 sample_heap sample_dict
           1%nat 2%nat [1; 0]%nat sample_chain_b).
  rewrite !not_elem_of_cons. repeat split; try discriminate. apply not_elem_of_nil.
Defined.

Lemma Patch_resolves_whole_chain_witness :
  exists qo1 : packObject,
    snd (Patch sample_patchDelta 3 sample_heap 2%nat sample_dict) !! 0%nat = Some qo1 /\
    PatchedData qo1 <> None.
Proof.
  apply (Patch_resolves_whole_chain sample_patchDelta 3 sample_heap
           (snd (Patch sample_patchDelta 3 sample_heap 2%nat sample_dict))
           sample_dict 2%nat 0%nat [2; 1; 0]%nat sample_heap_fresh sample_chain_d).
  - vm_compute. reflexivity.
  - rewrite !elem_of_cons. right. right. left. reflexivity.
Defined.

Section ResolverDepth.

Variable patchDelta : list Byte.byte -> list Byte.byte -> Reader + error.

Lemma wrap_int_small (z : Z) : - 2 ^ 63 <= z < 2 ^ 63 -> wrap_int z = z.
Proof. intros Hz. unfold wrap_int. rewrite Z.mod_small; lia. Qed.

Lemma wrap_int_add_wrap (a b : Z) : wrap_int (a + wrap_int b) = wrap_int (a + b).
Proof.
  unfold wrap_int.
  replace (a + ((b + 2 ^ 63) mod 2 ^ 64 - 2 ^ 63) + 2 ^ 63)
    with (a + (b + 2 ^ 63) mod 2 ^ 64) by lia.
  rewrite Zplus_mod_idemp_r. f_equal. f_equal. lia.
Qed.

Lemma Patch_chain_depth (h : heap) (dict : dictionary) (p : ptr) (l : list ptr) :
  chain h dict p l ->
  fresh h ->
  (forall (q : ptr) (qo : packObject),
      q ∈ l -> h !! q = Some qo -> - 2 ^ 63 <= Depth qo < 2 ^ 63) ->
  forall (f : nat) (h1 : heap),
    Patch patchDelta f h p dict = (Ok, h1) ->
    exists po1 : packObject,
      h1 !! p = Some po1 /\ Depth po1 = wrap_int (chain_depth h l).
Proof.
  intros Hc Hfresh.
  induction Hc as [p po Hp Ht|p b po l Hp Ht Hd Hc IH]; intros Hrange f h1 HP;
    (destruct f as [|f]; [discriminate|]);
    pose proof (len_nil_slice _ (Hfresh p po Hp)) as Hlen;
    cbn [chain_depth]; rewrite Hp.
  - rewrite (Patch_full_unfold patchDelta f h p dict po Hp Hlen Ht) in HP.
    destruct (Data po) as [d|]; [|discriminate]. injection HP as <-.
    eexists. split; [apply lookup_insert_eq|].
    cbn [Depth set_BaseObjectType set_PatchedData]. rewrite Z.add_0_r.
    symmetry. apply wrap_int_small.
    apply (Hrange p po); [apply elem_of_cons; left; reflexivity | exact Hp].
  - rewrite (Patch_delta_unfold patchDelta f h p b dict po Hp Hlen Ht Hd) in HP.
    destruct (Patch patchDelta f h b dict) as [r0 h0] eqn:Hb.
    destruct r0; try discriminate.
    destruct (IH ltac:(intros q qo Hq; apply Hrange; apply elem_of_cons; right; exact Hq)
                 f h0 Hb) as (bo1 & Hbo1 & Hdepth).
    rewrite Hbo1 in HP.
    rewrite (Patch_base_frame patchDelta h dict p b po Hp Hlen Ht Hd f h0 Hb) in HP.
    destruct (patchDelta _ _) as [patched|]; [|discriminate].
    destruct (r_err patched); [discriminate|]. injection HP as <-.
    eexists. split; [apply lookup_insert_eq|].
    cbn [Depth set_Depth]. rewrite Hdepth. apply wrap_int_add_wrap.
Qed.

(** X23.  In a heap as decoding leaves it, the [Depth] a successful [Patch]
    leaves in its receiver is the sum, in Go's [int], of the depths the
    descriptors of its chain of bases were decoded with: one per delta
    makes it the number of deltas of the chain. *)
Theorem Patch_depth_sums_chain (f : nat) (h h1 : heap) (dict : dictionary)
    (p : ptr) (l : list ptr) :
  fresh h ->
  chain h dict p l ->
  (forall (q : ptr) (qo : packObject),
      q ∈ l -> h !! q = Some qo -> - 2 ^ 63 <= Depth qo < 2 ^ 63) ->
  Patch patchDelta f h p dict = (Ok, h1) ->
  exists po1 : packObject,
    h1 !! p = Some po1 /\ Depth po1 = wrap_int (chain_depth h l).
Proof.
  intros Hfresh Hc Hrange HP.
  exact (Patch_chain_depth h dict p l Hc Hfresh Hrange f h1 HP).
Qed.

End ResolverDepth.

Lemma Patch_depth_sums_chain_witness :
  exists po1 : packObject,
    snd (Patch sample_patchDelta 3 sample_heap 2%nat sample_dict) !! 2%nat = Some po1 /\
    Depth po1 = wrap_int (chain_depth sample_heap [2; 1; 0]%nat).
Proof.
  apply (Patch_depth_sums_chain sample_patchDelta 3 sample_heap
           (snd (Patch sample_patchDelta 3 sample_heap 2%nat sample_dict))
           sample_dict 2%nat [2; 1; 0]%nat sample_heap_fresh sample_chain_d).
  - intros q qo Hq Hqo.
    repeat (apply elem_of_cons in Hq as [->|Hq];
            [vm_compute in Hqo; injection Hqo as <-; vm_compute;
             split; [discriminate | reflexivity]|]).
    apply elem_of_nil in Hq. contradiction.
  - vm_compute. reflexivity.
Defined.

(** ** Type normalisation *)

Lemma set_PatchedData_same (po : packObject) :
  set_PatchedData (PatchedData po) po = po.
Proof. destruct po. reflexivity. Qed.

Section NormalizerMore.

Variables Commit Tree Blob : Type.
Variable Commit_zero : Commit.
Variable Tree_zero : Tree.
Variable Blob_zero : Blob.
Variable parseCommit : list Byte.byte -> string -> SHA -> Commit * option error.
Variable parseTree : list Byte.byte -> string -> string -> Tree * option error.
Variable parseBlob : list Byte.byte -> string -> Blob * option error.
Variable packObjectType_String : packObjectType -> string.

#[local] Abbreviation Commit_of :=
  (packObject_Commit Commit Commit_zero parseCommit packObjectType_String).
#[local] Abbreviation Tree_of :=
  (packObject_Tree Tree Tree_zero parseTree packObjectType_String).
#[local] Abbreviation Blob_of :=
  (packObject_Blob Blob Blob_zero parseBlob packObjectType_String).
#[local] Abbreviation normalize_ :=
  (normalize Commit Tree Blob Commit_zero Tree_zero Blob_zero
     parseCommit parseTree parseBlob packObjectType_String).

(** X11.  Each accessor asked for a kind the descriptor was not decoded
    with returns the zero record and the error "pack object is not a
    <kind>: <type>", and leaves the heap as it was: the payload fallback is
    not reached. *)
Theorem accessor_kind_mismatch (h : heap) (p : ptr) (po : packObject)
    (basedir : string) :
  h !! p = Some po ->
  (_type po <> OBJ_COMMIT ->
   Commit_of h p basedir =
     Some (Commit_zero,
           Some (Errorf (String.append "pack object is not a commit: "
                           (packObjectType_String (_type po)))), h)) /\
  (_type po <> OBJ_TREE ->
   Tree_of h p basedir =
     Some (Tree_zero,
           Some (Errorf (String.append "pack object is not a tree: "
                           (packObjectType_String (_type po)))), h)) /\
  (_type po <> OBJ_BLOB ->
   Blob_of h p basedir =
     Some (Blob_zero,
           Some (Errorf (String.append "pack object is not a blob: "
                           (packObjectType_String (_type po)))), h)).
Proof.
  intros Hp. repeat split; intros Ht;
    unfold packObject_Commit, packObject_Tree, packObject_Blob, Type_;
    rewrite Hp, (proj2 (Z.eqb_neq _ _) Ht); reflexivity.
Qed.

(** The heap a call of [normalize] leaves: the fallback has run when the
    kind is commit, tree or blob, and nothing is written otherwise. *)
Lemma normalize_heap (h h' : heap) (p : ptr) (po : packObject)
    (basedir : string) (g : GitObject Commit Tree Blob) (e : option error) :
  h !! p = Some po ->
  normalize_ h p basedir = Some (g, e, h') ->
  h' = h \/ h' = snd (fallback h p po).
Proof.
  intros Hp HN. unfold normalize in HN. rewrite Hp in HN.
  destruct (_type po =? OBJ_COMMIT) eqn:E1.
  { unfold packObject_Commit in HN. rewrite Hp, E1 in HN. cbn [negb] in HN.
    destruct (fallback h p po) as [po' h2].
    destruct (parseCommit _ _ _). injection HN as <- <- <-. right. reflexivity. }
  destruct (_type po =? OBJ_TREE) eqn:E2.
  { unfold packObject_Tree in HN. rewrite Hp, E2 in HN. cbn [negb] in HN.
    destruct (fallback h p po) as [po' h2].
    destruct (parseTree _ _ _). injection HN as <- <- <-. right. reflexivity. }
  destruct (_type po =? OBJ_BLOB) eqn:E3.
  { unfold packObject_Blob in HN. rewrite Hp, E3 in HN. cbn [negb] in HN.
    destruct (fallback h p po) as [po' h2].
    destruct (parseBlob _ _). injection HN as <- <- <-. right. reflexivity. }
  injection HN as <- <- <-. left. reflexivity.
Qed.

(** X12.  The only write of [normalize] is the payload fallback: the heap it
    leaves is the heap it was given, except that a nil [PatchedData] of the
    receiver may have become its [Data]. *)
Theorem normalize_writes_fallback_only (h h' : heap) (p : ptr) (po : packObject)
    (basedir : string) (g : GitObject Commit Tree Blob) (e : option error) :
  h !! p = Some po ->
  normalize_ h p basedir = Some (g, e, h') ->
  h' = h \/
  (PatchedData po = None /\ h' = <[p := set_PatchedData (Data po) po]> h).
Proof.
  intros Hp HN.
  destruct (normalize_heap h h' p po basedir g e Hp HN) as [->| ->];
    [left; reflexivity|].
  unfold fallback. destruct (PatchedData po) eqn:Hpd; [left | right; split];
    reflexivity.
Qed.

Lemma fallback_twice (h : heap) (p : ptr) (po : packObject) :
  h !! p = Some po ->
  snd (fallback h p po) !! p = Some (fst (fallback h p po)) /\
  fallback (snd (fallback h p po)) p (fst (fallback h p po))
    = (fst (fallback h p po), snd (fallback h p po)).
Proof.
  intros Hp. unfold fallback.
  destruct (PatchedData po) as [d|] eqn:Hpd; cbn [fst snd].
  - split; [exact Hp|]. rewrite Hpd. reflexivity.
  - split; [apply lookup_insert_eq|].
    cbn [PatchedData Data set_PatchedData].
    destruct (Data po) as [d|] eqn:Hd; [reflexivity|].
    rewrite insert_insert_eq. reflexivity.
Qed.

(** X13.  [normalize] is idempotent: called again on the heap it left, it
    returns the same object and the same error and leaves that heap as it
    is. *)
Theorem normalize_idempotent (h h' : heap) (p : ptr) (po : packObject)
    (basedir : string) (g : GitObject Commit Tree Blob) (e : option error) :
  h !! p = Some po ->
  normalize_ h p basedir = Some (g, e, h') ->
  normalize_ h' p basedir = Some (g, e, h').
Proof.
  intros Hp HN. destruct (fallback_twice h p po Hp) as [Hp2 Hfb].
  assert (_type (fst (fallback h p po)) = _type po) as Hty.
  { unfold fallback. destruct (PatchedData po); reflexivity. }
  unfold normalize in HN |- *. rewrite Hp in HN.
  destruct (_type po =? OBJ_COMMIT) eqn:E1.
  { unfold packObject_Commit in HN |- *. rewrite Hp, E1 in HN. cbn [negb] in HN.
    destruct (fallback h p po) as [po' h2] eqn:Hf. cbn [fst snd] in *.
    destruct (parseCommit _ _ _) as [c e0] eqn:Hparse.
    injection HN as <- <- <-.
    rewrite Hp2, Hty, E1. cbn [negb]. rewrite Hfb, Hparse. reflexivity. }
  destruct (_type po =? OBJ_TREE) eqn:E2.
  { unfold packObject_Tree in HN |- *. rewrite Hp, E2 in HN. cbn [negb] in HN.
    destruct (fallback h p po) as [po' h2] eqn:Hf. cbn [fst snd] in *.
    destruct (parseTree _ _ _) as [c e0] eqn:Hparse.
    injection HN as <- <- <-.
    rewrite Hp2, Hty, E1, E2. cbn [negb]. rewrite Hfb, Hparse. reflexivity. }
  destruct (_type po =? OBJ_BLOB) eqn:E3.
  { unfold packObject_Blob in HN |- *. rewrite Hp, E3 in HN. cbn [negb] in HN.
    destruct (fallback h p po) as [po' h2] eqn:Hf. cbn [fst snd] in *.
    destruct (parseBlob _ _) as [c e0] eqn:Hparse.
    injection HN as <- <- <-.
    rewrite Hp2, Hty, E1, E2, E3. cbn [negb]. rewrite Hfb, Hparse. reflexivity. }
  injection HN as <- <- <-. rewrite Hp, E1, E2, E3. reflexivity.
Qed.

End NormalizerMore.

Section NormalizeAfterPatch.

Variable patchDelta : list Byte.byte -> list Byte.byte -> Reader + error.
Variables Commit Tree Blob : Type.
Variable Commit_zero : Commit.
Variable Tree_zero : Tree.
Variable Blob_zero : Blob.
Variable parseCommit : list Byte.byte -> string -> SHA -> Commit * option error.
Variable parseTree : list Byte.byte -> string -> string -> Tree * option error.
Variable parseBlob : list Byte.byte -> string -> Blob * option error.
Variable packObjectType_String : packObjectType -> string.

#[local] Abbreviation normalize_ :=
  (normalize Commit Tree Blob Commit_zero Tree_zero Blob_zero
     parseCommit parseTree parseBlob packObjectType_String).

(** X14.  For a full-content descriptor as decoded, with a non-nil [Data],
    resolving first changes nothing of what [normalize] returns: [Patch]
    succeeds, and [normalize] gives the same object and the same error on
    the heap [Patch] left as on the heap before. *)
Theorem normalize_after_Patch_full_content (f : nat) (h : heap) (p : ptr)
    (dict : dictionary) (po : packObject) (d : list Byte.byte)
    (basedir : string) :
  h !! p = Some po ->
  PatchedData po = None ->
  _type po < OBJ_OFS_DELTA ->
  Data po = Some d ->
  fst (Patch patchDelta (S f) h p dict) = Ok /\
  fst <$> normalize_ (snd (Patch patchDelta (S f) h p dict)) p basedir
    = fst <$> normalize_ h p basedir.
Proof.
  intros Hp Hpd Ht Hd.
  rewrite (Patch_full_unfold patchDelta f h p dict po Hp (len_nil_slice _ Hpd) Ht).
  rewrite Hd. cbn [fst snd]. split; [reflexivity|].
  unfold normalize, packObject_Commit, packObject_Tree, packObject_Blob.
  rewrite lookup_insert_eq, Hp.
  cbn [_type set_BaseObjectType set_PatchedData].
  unfold fallback. cbn [PatchedData set_BaseObjectType set_PatchedData].
  rewrite Hpd, Hd.
  cbn [PatchedData Data Size Name _type set_BaseObjectType set_PatchedData contents].
  destruct (_type po =? OBJ_COMMIT); cbn [negb];
    [destruct (parseCommit _ _ _); reflexivity|].
  destruct (_type po =? OBJ_TREE); cbn [negb];
    [destruct (parseTree _ _ _); reflexivity|].
  destruct (_type po =? OBJ_BLOB); cbn [negb];
    [destruct (parseBlob _ _); reflexivity|].
  reflexivity.
Qed.

End NormalizeAfterPatch.

(** *** The normaliser on the sample heaps *)

Lemma accessor_kind_mismatch_witness :
  packObject_Commit (list Byte.byte) [] sample_parseCommit sample_String
    (<[0%nat := deep_blob]> ∅) 0%nat "repo"
  = Some ([], Some (Errorf "pack object is not a commit: 3"),
          <[0%nat := deep_blob]> ∅).
Proof.
  refine (proj1 (accessor_kind_mismatch
                   (list Byte.byte) (list Byte.byte) (list Byte.byte) [] [] []
                   sample_parseCommit sample_parseTree sample_parseBlob sample_String
                   (<[0%nat := deep_blob]> ∅) 0%nat deep_blob "repo" _) _);
    vm_compute; solve [reflexivity | discriminate].
Defined.

Lemma normalize_writes_fallback_only_witness :
  <[0%nat := set_PatchedData (Some [Byte.x63])
               (decoded "aa11" OBJ_COMMIT (Some [Byte.x63]) "" 0)]> commit_heap
    = commit_heap \/
  (PatchedData (decoded "aa11" OBJ_COMMIT (Some [Byte.x63]) "" 0) = None /\
   <[0%nat := set_PatchedData (Some [Byte.x63])
                (decoded "aa11" OBJ_COMMIT (Some [Byte.x63]) "" 0)]> commit_heap
     = <[0%nat := set_PatchedData
                    (Data (decoded "aa11" OBJ_COMMIT (Some [Byte.x63]) "" 0))
                    (decoded "aa11" OBJ_COMMIT (Some [Byte.x63]) "" 0)]> commit_heap).
Proof.
  apply (normalize_writes_fallback_only
           (list Byte.byte) (list Byte.byte) (list Byte.byte) [] [] []
           sample_parseCommit sample_parseTree sample_parseBlob sample_String
           commit_heap _ 0%nat (decoded "aa11" OBJ_COMMIT (Some [Byte.x63]) "" 0)
           "repo" (GitCommit [Byte.x63]) None);
    reflexivity.
Defined.

Lemma normalize_idempotent_witness :
  sample_normalize
    (<[0%nat := set_PatchedData (Some [Byte.x63])
                  (decoded "aa11" OBJ_COMMIT (Some [Byte.x63]) "" 0)]> commit_heap)
    0%nat "repo"
  = Some (GitCommit [Byte.x63], None,
          <[0%nat := set_PatchedData (Some [Byte.x63])
                       (decoded "aa11" OBJ_COMMIT (Some [Byte.x63]) "" 0)]> commit_heap).
Proof.
  apply (normalize_idempotent
           (list Byte.byte) (list Byte.byte) (list Byte.byte) [] [] []
           sample_parseCommit sample_parseTree sample_parseBlob sample_String
           commit_heap _ 0%nat (decoded "aa11" OBJ_COMMIT (Some [Byte.x63]) "" 0)
           "repo" (GitCommit [Byte.x63]) None);
    reflexivity.
Defined.

Lemma normalize_after_Patch_full_content_witness :
  fst (Patch sample_patchDelta 1 commit_heap 0%nat ∅) = Ok /\
  fst <$> sample_normalize (snd (Patch sample_patchDelta 1 commit_heap 0%nat ∅))
            0%nat "repo"
    = fst <$> sample_normalize commit_heap 0%nat "repo".
Proof.
  apply (normalize_after_Patch_full_content sample_patchDelta
           (list Byte.byte) (list Byte.byte) (list Byte.byte) [] [] []
           sample_parseCommit sample_parseTree sample_parseBlob sample_String
           0 commit_heap 0%nat ∅ (decoded "aa11" OBJ_COMMIT (Some [Byte.x63]) "" 0)
           [Byte.x63] "repo");
    reflexivity.
Defined.

(** ** Pack locator *)

Lemma string_append_cons (c : ascii) (s t : string) :
  String.append (String c s) t = String c (String.append s t).
Proof. reflexivity. Qed.

Lemma string_length_append (s t : string) :
  String.length (String.append s t) = (String.length s + String.length t)%nat.
Proof.
  induction s as [|c s IH]; [reflexivity|].
  rewrite string_append_cons. cbn [String.length]. rewrite IH. reflexivity.
Qed.

Lemma substring_0_all (s : string) : String.substring 0 (String.length s) s = s.
Proof.
  induction s as [|c s IH]; cbn [String.substring String.length];
    [reflexivity | rewrite IH; reflexivity].
Qed.

Lemma substring_0_append (s t : string) :
  String.substring 0 (String.length s) (String.append s t) = s.
Proof.
  induction s as [|c s IH]; [destruct t; reflexivity|].
  rewrite string_append_cons. cbn [String.substring String.length].
  rewrite IH. reflexivity.
Qed.

Lemma substring_skip_append (s t : string) (m : nat) :
  String.substring (String.length s) m (String.append s t) = String.substring 0 m t.
Proof.
  induction s as [|c s IH]; [reflexivity|].
  rewrite string_append_cons. cbn [String.substring String.length]. exact IH.
Qed.

Lemma substring_split (s : string) :
  forall k : nat,
    (k <= String.length s)%nat ->
    String.append (String.substring 0 k s)
      (String.substring k (String.length s - k) s) = s.
Proof.
  induction s as [|c s IH]; intros [|k] Hk;
    cbn [String.substring String.length Nat.sub] in *; try lia.
  - reflexivity.
  - change (String.append "" (String c (String.substring 0 (String.length s) s)))
      with (String c (String.substring 0 (String.length s) s)).
    rewrite substring_0_all. reflexivity.
  - rewrite string_append_cons, (IH k ltac:(lia)). reflexivity.
Qed.

Lemma substring_0_length (s : string) :
  forall k : nat,
    (k <= String.length s)%nat -> String.length (String.substring 0 k s) = k.
Proof.
  induction s as [|c s IH]; intros [|k] Hk;
    cbn [String.substring String.length] in *; try lia; try reflexivity.
  rewrite (IH k ltac:(lia)). reflexivity.
Qed.

(** A suffix that is there can be put back after it was trimmed. *)
Lemma strings_TrimSuffix_append (s suffix : string) :
  strings_HasSuffix s suffix = true ->
  String.append (strings_TrimSuffix s suffix) suffix = s.
Proof.
  intros Hs. unfold strings_TrimSuffix. rewrite Hs.
  unfold strings_HasSuffix in Hs. apply andb_true_iff in Hs as [Hle Heq].
  apply Nat.leb_le in Hle. apply String.eqb_eq in Heq.
  pose proof (substring_split s (String.length s - String.length suffix)
                ltac:(lia)) as Hsplit.
  replace (String.length s - (String.length s - String.length suffix))%nat
    with (String.length suffix) in Hsplit by lia.
  rewrite Heq in Hsplit. exact Hsplit.
Qed.

Lemma strings_HasSuffix_append (name suffix : string) :
  strings_HasSuffix (String.append name suffix) suffix = true.
Proof.
  unfold strings_HasSuffix. rewrite string_length_append.
  apply andb_true_iff. split; [apply Nat.leb_le; lia|].
  replace (String.length name + String.length suffix - String.length suffix)%nat
    with (String.length name) by lia.
  rewrite substring_skip_append, substring_0_all. apply String.eqb_refl.
Qed.

Lemma strings_TrimSuffix_of_append (name suffix : string) :
  strings_TrimSuffix (String.append name suffix) suffix = name.
Proof.
  unfold strings_TrimSuffix. rewrite strings_HasSuffix_append, string_length_append.
  replace (String.length name + String.length suffix - String.length suffix)%nat
    with (String.length name) by lia.
  apply substring_0_append.
Qed.

(** Trimming a non-empty suffix leaves the string as it is exactly when the
    suffix is not there: the test [base == file.Name()]. *)
Lemma strings_TrimSuffix_same (s suffix : string) :
  suffix <> "" ->
  String.eqb (strings_TrimSuffix s suffix) s = negb (strings_HasSuffix s suffix).
Proof.
  intros Hne. unfold strings_TrimSuffix.
  destruct (strings_HasSuffix s suffix) eqn:Hs; [|apply String.eqb_refl].
  cbn [negb]. apply String.eqb_neq. intros Heq.
  unfold strings_HasSuffix in Hs. apply andb_true_iff in Hs as [Hle _].
  apply Nat.leb_le in Hle.
  assert (String.length suffix <> 0%nat) as Hpos by (destruct suffix; [contradiction | cbn; lia]).
  apply (f_equal String.length) in Heq.
  rewrite substring_0_length in Heq by lia. lia.
Qed.

Lemma strings_HasPrefix_append (s prefix : string) :
  strings_HasPrefix s prefix = true ->
  exists rest : string, s = String.append prefix rest.
Proof.
  unfold strings_HasPrefix. revert s.
  induction prefix as [|a prefix IH]; intros s Hs.
  - exists s. reflexivity.
  - destruct s as [|c s]; cbn [String.prefix] in Hs; [discriminate|].
    destruct (ascii_dec a c) as [->|]; [|discriminate].
    destruct (IH s Hs) as [rest ->]. exists rest. reflexivity.
Qed.

(** The loop of [listPackfiles]. *)
Lemma listPackfiles_loop (files : list string) :
  forall acc : list SHA,
    fold_left
      (fun (packfileNames : list SHA) (file : string) =>
         let base := strings_TrimSuffix file ".pack" in
         if String.eqb base file then packfileNames
         else (packfileNames ++ [base])%list)
      files acc
    = (acc ++ map (fun file => strings_TrimSuffix file ".pack")
               (List.filter (fun file => strings_HasSuffix file ".pack") files))%list.
Proof.
  induction files as [|file files IH]; intros acc; cbn [fold_left List.filter map].
  - symmetry. apply app_nil_r.
  - rewrite IH, strings_TrimSuffix_same by discriminate.
    destruct (strings_HasSuffix file ".pack"); cbn [negb map];
      [rewrite <- app_assoc|]; reflexivity.
Qed.

Section LocatorMore.

Variable path_Join : list string -> string.
Variable ioutil_ReadDir : string -> list string + error.
Variable open_error : string -> option string.
Variable verify : string -> string -> list packObject + string.

#[local] Abbreviation objInPacks_ := (objInPacks path_Join open_error verify).
#[local] Abbreviation loop_ := (objInPacks_loop path_Join open_error verify).
#[local] Abbreviation searchPacks_ :=
  (searchPacks path_Join ioutil_ReadDir open_error verify).
#[local] Abbreviation lists_ := (archive_lists path_Join open_error verify).

(** X15.  [listPackfiles] returns, in the order of the directory listing,
    the entries whose name ends in ".pack", each without that suffix; the
    other entries are left out. *)
Theorem listPackfiles_keeps_pack_entries (basedir : string) (files : list string) :
  ioutil_ReadDir (path_Join [basedir; "objects"; "pack"]) = inl files ->
  listPackfiles path_Join ioutil_ReadDir basedir =
    inl (map (fun file => strings_TrimSuffix file ".pack")
           (List.filter (fun file => strings_HasSuffix file ".pack") files)).
Proof.
  intros Hdir. unfold listPackfiles. rewrite Hdir, listPackfiles_loop. reflexivity.
Qed.

(** X16.  The names [listPackfiles] returns are exactly those whose
    ".pack" file is an entry of the directory: putting the suffix back on a
    listed name, as [objInPacks] does to open the archive, gives the entry
    the name came from. *)
Theorem listPackfiles_names_pack_files (basedir : string) (files : list string)
    (packs : list SHA) (name : SHA) :
  ioutil_ReadDir (path_Join [basedir; "objects"; "pack"]) = inl files ->
  listPackfiles path_Join ioutil_ReadDir basedir = inl packs ->
  In name packs <-> In (String.append name ".pack") files.
Proof.
  intros Hdir Hlist. unfold listPackfiles in Hlist.
  rewrite Hdir, listPackfiles_loop in Hlist. injection Hlist as <-.
  cbn [app]. rewrite in_map_iff. split.
  - intros (file & <- & Hin). apply List.filter_In in Hin as [Hin Hs].
    rewrite (strings_TrimSuffix_append file ".pack" Hs). exact Hin.
  - intros Hin. exists (String.append name ".pack"). split.
    + apply strings_TrimSuffix_of_append.
    + apply List.filter_In. split; [exact Hin | apply strings_HasSuffix_append].
Qed.

(** What the loop returns when it has found a descriptor. *)
Lemma objInPacks_loop_found (object : SHA) (basedir : string) (packs : list SHA) :
  forall (deferred : list File) (w : world) (obj : packObject) (e : option error),
    fst (fst (loop_ packs object basedir deferred w)) = (Some obj, e) ->
    e = None /\
    strings_HasPrefix (Name obj) object = true /\
    exists (name : SHA) (objs : list packObject),
      In name packs /\ lists_ basedir name objs /\ In obj objs.
Proof.
  induction packs as [|name packs IH]; intros deferred w obj e HR;
    cbn [objInPacks_loop] in HR; [discriminate|].
  unfold os_Open in HR.
  destruct (open_error (path_Join [basedir; "objects"; "pack"; String.append name ".pack"]))
    as [tag|] eqn:Hpack; [discriminate|].
  cbn [next_fd events] in HR.
  destruct (open_error (path_Join [basedir; "objects"; "pack"; String.append name ".idx"]))
    as [tag|] eqn:Hidx; [discriminate|].
  unfold VerifyPack in HR. cbn [fname] in HR.
  destruct (verify _ _) as [objs|tag] eqn:Hver; [|discriminate].
  destruct (find _ objs) as [obj'|] eqn:Hfind.
  - cbn [fst] in HR. injection HR as <- <-. apply find_some in Hfind as [Hin Hpre].
    split; [reflexivity|]. split; [exact Hpre|].
    exists name, objs. split; [left; reflexivity|]. split; [|exact Hin].
    repeat split; assumption.
  - destruct (IH _ _ obj e HR) as (He & Hpre & name' & objs' & Hin & Hl & Hobj).
    split; [exact He|]. split; [exact Hpre|].
    exists name', objs'. split; [right; exact Hin|]. split; assumption.
Qed.

(** X17.  A descriptor [objInPacks] returns comes with a nil error, its name
    is the query followed by some rest, and it is in the list the verifier
    gave for one of the archives searched, both files of which opened. *)
Theorem objInPacks_found_is_listed (object : SHA) (basedir : string)
    (packs : list SHA) (w : world) (obj : packObject) (e : option error) :
  fst (objInPacks_ packs object basedir w) = (Some obj, e) ->
  e = None /\
  (exists rest : string, Name obj = String.append object rest) /\
  exists (name : SHA) (objs : list packObject),
    In name packs /\ lists_ basedir name objs /\ In obj objs.
Proof.
  intros HR. rewrite (objInPacks_fst path_Join open_error verify) in HR.
  destruct (objInPacks_loop_found object basedir packs [] w obj e HR)
    as (He & Hpre & Hlisted).
  split; [exact He|]. split; [|exact Hlisted].
  apply strings_HasPrefix_append. exact Hpre.
Qed.

(** The results the loop can return. *)
Lemma objInPacks_loop_results (object : SHA) (basedir : string) (packs : list SHA) :
  forall (deferred : list File) (w : world),
    (exists obj : packObject,
        fst (fst (loop_ packs object basedir deferred w)) = (Some obj, None)) \/
    (exists tag : string,
        fst (fst (loop_ packs object basedir deferred w))
          = (None, Some (Foreign tag))) \/
    fst (fst (loop_ packs object basedir deferred w))
      = (None, Some (not_in_packfiles object)).
Proof.
  induction packs as [|name packs IH]; intros deferred w; cbn [objInPacks_loop].
  - right. right. reflexivity.
  - unfold os_Open. destruct (open_error _) as [tag|]; [right; left; eauto|].
    cbn [next_fd events]. destruct (open_error _) as [tag|]; [right; left; eauto|].
    unfold VerifyPack. cbn [fname].
    destruct (verify _ _) as [objs|tag]; [|right; left; eauto].
    destruct (find _ objs) as [obj|]; [left; eauto | apply IH].
Qed.

(** X18.  [objInPacks] returns either a descriptor and a nil error, or no
    descriptor and an error, never both and never neither; the error is
    one handed back by [os.Open] or by the verifier, or else the error
    "object not in any packfiles: <query>". *)
Theorem objInPacks_results (object : SHA) (basedir : string) (packs : list SHA)
    (w : world) :
  (exists obj : packObject,
      fst (objInPacks_ packs object basedir w) = (Some obj, None)) \/
  (exists tag : string,
      fst (objInPacks_ packs object basedir w) = (None, Some (Foreign tag))) \/
  fst (objInPacks_ packs object basedir w) = (None, Some (not_in_packfiles object)).
Proof.
  rewrite (objInPacks_fst path_Join open_error verify).
  apply objInPacks_loop_results.
Qed.

Lemma opened_files_app (evs1 evs2 : list event) :
  opened_files (evs1 ++ evs2) = (opened_files evs1 ++ opened_files evs2)%list.
Proof.
  induction evs1 as [|[f|pf inf|f] evs1 IH]; cbn [opened_files app];
    rewrite ?IH; reflexivity.
Qed.

(** The events of the loop: opens and verifications only, and every file
    opened is on the stack of deferred calls, the latest on top. *)
Lemma objInPacks_loop_trace (object : SHA) (basedir : string) (packs : list SHA) :
  forall (deferred : list File) (w : world),
  exists evs : list event,
    events (snd (loop_ packs object basedir deferred w)) = (events w ++ evs)%list /\
    Forall (fun ev => forall f : File, ev <> EvClose f) evs /\
    snd (fst (loop_ packs object basedir deferred w))
      = (rev (opened_files evs) ++ deferred)%list.
Proof.
  induction packs as [|name packs IH]; intros deferred w; cbn [objInPacks_loop].
  - exists []. cbn. rewrite app_nil_r. repeat split. constructor.
  - unfold os_Open. destruct (open_error _) as [tag|].
    { exists []. cbn. rewrite app_nil_r. repeat split. constructor. }
    cbn [next_fd events]. destruct (open_error _) as [tag|].
    { eexists [_]. cbn. repeat split. repeat constructor. discriminate. }
    destruct (VerifyPack verify _ _) as [objs|e].
    + destruct (find _ objs) as [obj|].
      * eexists [_; _; _]. cbn [fst snd emit events]. rewrite <- !app_assoc.
        repeat split. repeat constructor; discriminate.
      * match goal with |- context [objInPacks_loop _ _ _ _ _ _ ?d ?w'] =>
          destruct (IH d w') as (evs & -> & Hevs & ->) end.
        eexists (_ :: _ :: _ :: evs). cbn [emit events]. rewrite <- !app_assoc.
        split; [reflexivity|]. split.
        -- repeat constructor; try discriminate. exact Hevs.
        -- cbn [opened_files rev app]. rewrite <- !app_assoc. reflexivity.
    + eexists [_; _; _]. cbn [fst snd emit events]. rewrite <- !app_assoc.
      repeat split. repeat constructor; discriminate.
Qed.

(** X19.  The events of a call of [objInPacks] are opens and verifications
    followed by closes only: nothing is closed before the search is over,
    and then every file the search opened is closed once, the latest
    opened first. *)
Theorem objInPacks_closes_last (object : SHA) (basedir : string) (packs : list SHA)
    (w : world) :
  exists evs : list event,
    events (snd (objInPacks_ packs object basedir w))
      = (events w ++ evs ++ map EvClose (rev (opened_files evs)))%list /\
    Forall (fun ev => forall f : File, ev <> EvClose f) evs.
Proof.
  destruct (objInPacks_loop_trace object basedir packs [] w)
    as (evs & Hev & Hno & Hdef).
  exists evs. split; [|exact Hno]. unfold objInPacks.
  destruct (loop_ packs object basedir [] w) as [[r deferred] w'].
  cbn [fst snd] in *. subst deferred.
  rewrite run_deferred_events, Hev, app_nil_r, <- app_assoc. reflexivity.
Qed.

(** X20.  Whatever its result, a call of [objInPacks] leaves open exactly
    the handles that were open before it: every handle it opened has been
    closed when it returns.  (The descriptor numbers in use are below the
    next number to be given out.) *)
Theorem objInPacks_leaks_no_handle (object : SHA) (basedir : string)
    (packs : list SHA) (w : world) (acc : list nat) :
  Forall (fun n => (n < next_fd w)%nat) (open_handles (events w) acc) ->
  open_handles (events (snd (objInPacks_ packs object basedir w))) acc
    = open_handles (events w) acc.
Proof.
  apply (objInPacks_releases_at_return path_Join open_error verify).
Qed.

(** X21.  A match hides what comes after it: when the archives before
    [name] open, verify and hold no match and [name] holds one, the search
    returns the first match of [name] and runs as if the enumeration ended
    at [name]; the later archives are not opened, be they corrupt or
    not. *)
Theorem objInPacks_match_ends_search (object : SHA) (basedir : string)
    (pre post : list SHA) (name : SHA) (objs : list packObject)
    (obj : packObject) (w : world) :
  Forall (fun n => exists objs, lists_ basedir n objs /\ first_match object objs = None)
    pre ->
  lists_ basedir name objs ->
  first_match object objs = Some obj ->
  fst (objInPacks_ (pre ++ name :: post) object basedir w) = (Some obj, None) /\
  objInPacks_ (pre ++ name :: post) object basedir w
    = objInPacks_ (pre ++ [name]) object basedir w.
Proof.
  intros Hpre Hl Hm.
  pose proof (fun rest =>
    loop_archive_lists path_Join open_error verify basedir object name objs rest) as Hstep.
  split.
  - rewrite (objInPacks_fst path_Join open_error verify).
    rewrite (loop_skips path_Join open_error verify basedir object pre Hpre).
    rewrite (Hstep post _ _ Hl), Hm. reflexivity.
  - unfold objInPacks.
    rewrite !(loop_skips path_Join open_error verify basedir object pre Hpre).
    rewrite (Hstep post _ _ Hl), (Hstep [] _ _ Hl), Hm. reflexivity.
Qed.

(** X22.  In a directory none of whose entries ends in ".pack" the search
    fails with "object not in any packfiles: <query>" and opens no file. *)
Theorem searchPacks_without_archives (object : SHA) (basedir : string)
    (files : list string) (w : world) :
  ioutil_ReadDir (path_Join [basedir; "objects"; "pack"]) = inl files ->
  Forall (fun file => strings_HasSuffix file ".pack" = false) files ->
  searchPacks_ object basedir w = ((None, Some (not_in_packfiles object)), w).
Proof.
  intros Hdir Hnone. unfold searchPacks, listPackfiles.
  rewrite Hdir, listPackfiles_loop.
  replace (List.filter (fun file => strings_HasSuffix file ".pack") files)
    with (@nil string); [reflexivity|].
  clear Hdir. induction Hnone as [|file files Hfile _ IH]; [reflexivity|].
  cbn [List.filter]. rewrite Hfile. exact IH.
Qed.

End LocatorMore.

(** *** The locator on the sample directories *)

Lemma listPackfiles_keeps_pack_entries_witness :
  listPackfiles sample_path_Join sample_ReadDir "repo" =
    inl (map (fun file => strings_TrimSuffix file ".pack")
           (List.filter (fun file => strings_HasSuffix file ".pack")
              ["README"; "a.idx"; "a.pack"; "b.idx"; "b.pack"; "c.idx"; "c.pack";
               "d.idx"; "d.pack"])).
Proof.
  apply (listPackfiles_keeps_pack_entries sample_path_Join sample_ReadDir "repo").
  reflexivity.
Defined.

Lemma listPackfiles_names_pack_files_witness :
  In "b" ["a"; "b"] <-> In (String.append "b" ".pack") ["a.idx"; "a.pack"; "b.idx"; "b.pack"].
Proof.
  apply (listPackfiles_names_pack_files sample_path_Join sample_ReadDir "good"
           ["a.idx"; "a.pack"; "b.idx"; "b.pack"] ["a"; "b"] "b");
    vm_compute; reflexivity.
Defined.

Lemma objInPacks_found_is_listed_witness :
  @None error = None /\
  (exists rest : string, Name (decoded "bb33" OBJ_TREE (Some [Byte.x02]) "" 0)
                         = String.append "bb" rest) /\
  exists (name : SHA) (objs : list packObject),
    In name ["a"; "b"] /\
    archive_lists sample_path_Join sample_open_error sample_verify "good" name objs /\
    In (decoded "bb33" OBJ_TREE (Some [Byte.x02]) "" 0) objs.
Proof.
  apply (objInPacks_found_is_listed sample_path_Join sample_open_error sample_verify
           "bb" "good" ["a"; "b"] sample_world
           (decoded "bb33" OBJ_TREE (Some [Byte.x02]) "" 0) None).
  vm_compute. reflexivity.
Defined.

Lemma objInPacks_leaks_no_handle_witness :
  open_handles
    (events (snd (objInPacks sample_path_Join sample_open_error sample_verify
                    ["a"; "b"; "c"; "d"] "zz" "repo" sample_world))) []
  = open_handles (events sample_world) [].
Proof.
  apply (objInPacks_leaks_no_handle sample_path_Join sample_open_error sample_verify
           "zz" "repo" ["a"; "b"; "c"; "d"] sample_world []).
  vm_compute. constructor.
Defined.

Lemma objInPacks_match_ends_search_witness :
  fst (objInPacks sample_path_Join sample_open_error sample_verify
         (["a"] ++ "b" :: ["c"; "d"]) "bb" "repo" sample_world)
    = (Some (decoded "bb33" OBJ_TREE (Some [Byte.x02]) "" 0), None) /\
  objInPacks sample_path_Join sample_open_error sample_verify
    (["a"] ++ "b" :: ["c"; "d"]) "bb" "repo" sample_world
  = objInPacks sample_path_Join sample_open_error sample_verify
      (["a"] ++ ["b"]) "bb" "repo" sample_world.
Proof.
  apply (objInPacks_match_ends_search sample_path_Join sample_open_error
           sample_verify "bb" "repo" ["a"] ["c"; "d"] "b" sample_objs_b
           (decoded "bb33" OBJ_TREE (Some [Byte.x02]) "" 0) sample_world).
  - repeat constructor. exists sample_objs_a. vm_compute. repeat split.
  - vm_compute. repeat split.
  - reflexivity.
Defined.

Lemma searchPacks_without_archives_witness :
  searchPacks sample_path_Join bare_ReadDir sample_open_error sample_verify
    "aa11" "bare" sample_world
  = ((None, Some (not_in_packfiles "aa11")), sample_world).
Proof.
  apply (searchPacks_without_archives sample_path_Join bare_ReadDir
           sample_open_error sample_verify "aa11" "bare" ["README"; "pack-1.idx"]
           sample_world).
  - reflexivity.
  - repeat constructor.
Defined.
